(** * UrbanPiper order fetcher: a shallow embedding of [fetch_orders.py]

    The development follows the source file top to bottom:

    - Python values, truthiness and the few builtins the code calls;
    - the [requests] session built by [_create_session];
    - a small program monad whose nodes are the atomic actions the
      worker threads perform on shared state (file system, lock,
      counters, network);
    - [fetch_order], [save_order], [process_single_order] written in it;
    - the thread pool of [fetch_all_orders] as an interleaving semantics
      driven by an explicit schedule;
    - invariants of every reachable pool state, and the properties of
      completed runs derived from them. *)

From Stdlib Require Import ZArith Lia Ascii String.
From stdpp Require Import base option list strings gmap.

Local Open Scope Z_scope.
Local Open Scope string_scope.

(** ** Python values *)

(** The objects [response.json()] can return, and [None].  A [dict] is
    kept as an association list in insertion order.  A [float] is carried
    as its 64 bit pattern: the program never computes with one. *)
#[warnings="-register-all"]
Inductive pyval : Type :=
| PNone
| PBool (b : bool)
| PInt (n : Z)
| PFloat (bits : Z)
| PStr (s : string)
| PList (l : list pyval)
| PDict (items : list (string * pyval)).

(** [bool(x)], as used by [if order_data:]. *)
Definition truthy (x : pyval) : bool :=
  match x with
  | PNone => false
  | PBool b => b
  | PInt n => negb (n =? 0)%Z
  | PFloat bits => negb ((bits =? 0) || (bits =? 2 ^ 63))%Z
  | PStr s => negb (String.eqb s "")
  | PList l => match l with [] => false | _ => true end
  | PDict items => match items with [] => false | _ => true end
  end.

(** The exceptions the calls of the file raise. All derive from
    [Exception]. [json.dump] raises [UnicodeEncodeError] when the document
    holds a character the file's encoding has no bytes for. *)
Inductive exn : Type :=
| ValueError
| OSError
| JSONDecodeError
| RequestException
| UnicodeEncodeError.

(** ** HTTP sessions *)

Definition lower_ascii (c : ascii) : ascii :=
  let n := Ascii.N_of_ascii c in
  if ((65 <=? n) && (n <=? 90))%N then Ascii.ascii_of_N (n + 32) else c.

Fixpoint lower (s : string) : string :=
  match s with
  | EmptyString => EmptyString
  | String c s' => String (lower_ascii c) (lower s')
  end.

(** [requests]' header dictionary is case insensitive: it is keyed by
    the lower-cased name and remembers the spelling last used. *)
Abbreviation headers := (gmap string (string * string)).

Definition header_set (h : headers) (kv : string * string) : headers :=
  <[lower kv.1 := kv]> h.

(** [session.headers.update({...})] *)
Definition headers_update (h : headers) (kvs : list (string * string)) : headers :=
  foldl header_set h kvs.

Definition header_get (h : headers) (name : string) : option string :=
  snd <$> h !! lower name.

Record session : Type := Session { session_headers : headers }.

Record response : Type := Response { status_code : Z; text : string }.

(** ** The fetcher object *)

(** The attributes [__init__] sets and nothing later assigns.  The three
    counters and the lock are mutable and live in [world] below. *)
Record UrbanPiperOrderFetcher : Type := {
  api_base_url : string;
  auth_token : option string;
  cookie : option string;
  orders_dir : string
}.

Definition __init__ (api_base_url : string) (auth_token cookie : option string)
  : UrbanPiperOrderFetcher :=
  {| api_base_url := api_base_url;
     auth_token := auth_token;
     cookie := cookie;
     orders_dir := "orders" |}.

(** Truthiness of an optional string attribute ([None] and [""] are false). *)
Definition configured (o : option string) : option string :=
  match o with
  | Some s => if String.eqb s "" then None else Some s
  | None => None
  end.

(** The double quote character, which two of the header values contain. *)
Definition dq : string := String (Ascii.ascii_of_nat 34) EmptyString.

Definition common_headers : list (string * string) :=
  [ ("accept", "*/*");
    ("accept-language", "en-US,en;q=0.9");
    ("content-type", "application/json");
    ("dnt", "1");
    ("origin", "https://atlas.urbanpiper.com");
    ("referer", "https://atlas.urbanpiper.com/");
    ("sec-ch-ua",
     dq +:+ "Not)A;Brand" +:+ dq +:+ ";v=" +:+ dq +:+ "8" +:+ dq +:+ ", "
        +:+ dq +:+ "Chromium" +:+ dq +:+ ";v=" +:+ dq +:+ "138" +:+ dq);
    ("sec-ch-ua-mobile", "?0");
    ("sec-ch-ua-platform", dq +:+ "macOS" +:+ dq);
    ("sec-fetch-dest", "empty");
    ("sec-fetch-mode", "cors");
    ("sec-fetch-site", "same-site");
    ("user-access", "true");
    ("user-agent", "Mozilla/5.0 (Macintosh; Intel Mac OS X 10_15_7) AppleWebKit/537.36 (KHTML, like Gecko) Chrome/138.0.0.0 Safari/537.36") ].

(** ** Shared state

    What the worker threads and the main thread share: the files (by
    the name the system knows them under), the [threading.Lock], and the
    three counters of the fetcher object. *)

(** What a file holds. Between [open(p, 'w')] and the end of the [with]
    block the file is there and holds the empty text or a growing prefix
    of the text being written: the program never reads a file, so the
    model does not say which. *)
Inductive content : Type :=
| Text (s : string)
| Writing.

Inductive counter : Type := Successful | Failed | Skipped.

(** A thread of control: the main thread, or the worker running task [i]. *)
Inductive tid : Type := TMain | TTask (i : nat).

#[global] Instance tid_eq_dec : EqDecision tid.
Proof. solve_decision. Defined.

#[global] Instance counter_eq_dec : EqDecision counter.
Proof. solve_decision. Defined.

Record world : Type := World {
  files : gmap string content;
  lock : option tid;
  successful_fetches : Z;
  failed_fetches : Z;
  skipped_fetches : Z
}.

Definition get_counter (c : counter) (w : world) : Z :=
  match c with
  | Successful => successful_fetches w
  | Failed => failed_fetches w
  | Skipped => skipped_fetches w
  end.

Definition set_counter (c : counter) (v : Z) (w : world) : world :=
  match c with
  | Successful => World (files w) (lock w) v (failed_fetches w) (skipped_fetches w)
  | Failed => World (files w) (lock w) (successful_fetches w) v (skipped_fetches w)
  | Skipped => World (files w) (lock w) (successful_fetches w) (failed_fetches w) v
  end.

Definition set_files (fs : gmap string content) (w : world) : world :=
  World fs (lock w) (successful_fetches w) (failed_fetches w) (skipped_fetches w).

Definition set_lock (l : option tid) (w : world) : world :=
  World (files w) l (successful_fetches w) (failed_fetches w) (skipped_fetches w).

(** ** Programs

    A thread's code is a tree of atomic actions.  Each node names the
    action and continues with its answer; [Ret] and [Raise] are the two
    ways a call ends.  [print] and [time.sleep] are left out. *)
Inductive prog (A : Type) : Type :=
| Ret (a : A)
| Raise (e : exn)
| PathExists (p : string) (k : exn + bool -> prog A)
    (* [Path.exists()]: an answer, or the error of the [stat] behind it *)
| SessionPost (s : session) (url : string) (body : pyval) (k : exn + response -> prog A)
    (* [session.post(url, json=body)]: a response, or a transport error *)
| Open (p : string) (k : option exn -> prog A)
    (* [open(p, 'w')]: creates or truncates the file *)
| Dump (p : string) (data : string) (k : option exn -> prog A)
    (* the end of the [with] block: [json.dump] has written [data] and
       the file is closed, or it has raised after some prefix *)
| Acquire (k : prog A)
| GetAttr (c : counter) (k : Z -> prog A)
| SetAttr (c : counter) (v : Z) (k : prog A)
| Release (k : prog A).

Arguments Ret {A} a.
Arguments Raise {A} e.
Arguments PathExists {A} p k.
Arguments SessionPost {A} s url body k.
Arguments Open {A} p k.
Arguments Dump {A} p data k.
Arguments Acquire {A} k.
Arguments GetAttr {A} c k.
Arguments SetAttr {A} c v k.
Arguments Release {A} k.

Fixpoint bind {A B : Type} (m : prog A) (f : A -> prog B) : prog B :=
  match m with
  | Ret a => f a
  | Raise e => Raise e
  | PathExists p k => PathExists p (fun r => bind (k r) f)
  | SessionPost s u j k => SessionPost s u j (fun r => bind (k r) f)
  | Open p k => Open p (fun r => bind (k r) f)
  | Dump p d k => Dump p d (fun r => bind (k r) f)
  | Acquire k => Acquire (bind k f)
  | GetAttr c k => GetAttr c (fun v => bind (k v) f)
  | SetAttr c v k => SetAttr c v (bind k f)
  | Release k => Release (bind k f)
  end.

(** [try: m  except ...: h e].  A handler that does not match an
    exception raises it again. *)
Fixpoint try_except {A : Type} (m : prog A) (h : exn -> prog A) : prog A :=
  match m with
  | Ret a => Ret a
  | Raise e => h e
  | PathExists p k => PathExists p (fun r => try_except (k r) h)
  | SessionPost s u j k => SessionPost s u j (fun r => try_except (k r) h)
  | Open p k => Open p (fun r => try_except (k r) h)
  | Dump p d k => Dump p d (fun r => try_except (k r) h)
  | Acquire k => Acquire (try_except k h)
  | GetAttr c k => GetAttr c (fun v => try_except (k v) h)
  | SetAttr c v k => SetAttr c v (try_except k h)
  | Release k => Release (try_except k h)
  end.

Declare Scope prog_scope.
Delimit Scope prog_scope with prog.
Notation "x <- m ;; k" := (bind m (fun x => k))
  (at level 100, m at next level, right associativity) : prog_scope.
Notation "m ;;; k" := (bind m (fun _ => k))
  (at level 100, right associativity) : prog_scope.

(** The primitive calls, raising what the action answers. *)
Definition path_exists (p : string) : prog bool :=
  PathExists p (fun r => match r with inl e => Raise e | inr b => Ret b end).

Definition session_post (s : session) (url : string) (body : pyval) : prog response :=
  SessionPost s url body
    (fun r => match r with inl e => Raise e | inr resp => Ret resp end).

Definition open_w (p : string) : prog unit :=
  Open p (fun r => match r with Some e => Raise e | None => Ret tt end).

Definition dump_close (p : string) (data : string) : prog unit :=
  Dump p data (fun r => match r with Some e => Raise e | None => Ret tt end).

(** [with self.lock: self.<c> += 1] *)
Definition locked_incr (c : counter) : prog unit :=
  Acquire (GetAttr c (fun v => SetAttr c (v + 1) (Release (Ret tt)))).

(** ** One atomic step

    What a thread's history records, one event per action performed. *)
Inductive outcome : Type := Returned (r : string) | Raised (e : exn).

Inductive event : Type :=
| EvExists (p : string) (r : exn + bool)
| EvPost (s : session) (url : string) (body : pyval) (r : exn + response)
| EvOpen (p : string) (r : option exn)
| EvDump (p : string) (data : string) (r : option (nat * exn))
| EvAcquire
| EvGet (c : counter) (v : Z)
| EvSet (c : counter) (v : Z)
| EvRelease
| EvResult (i : nat) (o : outcome).

(** What the outside world answers when asked: the network's reply to a
    POST; whether the system refuses the [stat] of a name that has no
    file (a name too long, a directory that cannot be searched), and
    with what; whether [open] raises, and what; whether the write raises,
    what, and how many characters have reached the file by then. A write
    can raise on a healthy disk: [json.dump] raises on a document it
    cannot encode. *)
Record oracle : Type := Oracle {
  net : exn + response;
  stat_fails : option exn;
  open_fails : option exn;
  dump_fails : option (nat * exn)
}.

(** What reaches the file when the write ends as [r] says. *)
Definition written (data : string) (r : option (nat * exn)) : string :=
  match r with
  | None => data
  | Some (n, _) => String.substring 0 n data
  end.

(** One action of thread [t] in world [w].  [None]: the thread cannot
    move (its call has ended, or it waits for the lock). *)
Definition exec1 {A : Type} (t : tid) (o : oracle) (w : world) (p : prog A)
  : option (world * prog A * event) :=
  match p with
  | Ret _ | Raise _ => None
  | PathExists f k =>
      let r :=
        match files w !! f, stat_fails o with
        | Some _, _ => inr true
        | None, None => inr false
        | None, Some e => inl e
        end in
      Some (w, k r, EvExists f r)
  | SessionPost s u j k => Some (w, k (net o), EvPost s u j (net o))
  | Open f k =>
      match open_fails o with
      | Some e => Some (w, k (Some e), EvOpen f (Some e))
      | None => Some (set_files (<[f := Writing]> (files w)) w, k None, EvOpen f None)
      end
  | Dump f d k =>
      let r := dump_fails o in
      Some (set_files (<[f := Text (written d r)]> (files w)) w,
            k (snd <$> r), EvDump f d r)
  | Acquire k =>
      match lock w with
      | None => Some (set_lock (Some t) w, k, EvAcquire)
      | Some _ => None
      end
  | GetAttr c k => Some (w, k (get_counter c w), EvGet c (get_counter c w))
  | SetAttr c v k => Some (set_counter c v w, k, EvSet c v)
  | Release k => Some (set_lock None w, k, EvRelease)
  end.

(** ** Library functions the code calls

    [int], [str.strip], [json.loads] (behind [response.json()]),
    [json.dump(..., indent=2, ensure_ascii=False)], the headers a fresh
    [requests.Session()] starts with and the [/] of [pathlib] belong to
    Python and [requests], not to this repository: the development is
    parametric in them. [path_join d name] is the file that
    [Path(d) / name] names, under the one name the world below knows it
    by: [pathlib] drops [.] components and repeated slashes and lets an
    absolute [name] replace [d], and the file system can reach one file
    by several paths, so two names can give one file. *)
Section Fetcher.

Variable py_int : string -> option Z.
Variable py_strip : string -> string.
Variable json_loads : string -> option pyval.
Variable json_dumps : pyval -> string.
Variable default_headers : headers.
Variable path_join : string -> string -> string.

(** *** [_create_session] *)

Definition _create_session (self : UrbanPiperOrderFetcher) : session :=
  let h := default_headers in
  let h :=
    match configured (auth_token self) with
    | Some tok => headers_update h [("Authorization", "Bearer " +:+ tok)]
    | None =>
        match configured (cookie self) with
        | Some c => headers_update h [("Cookie", c)]
        | None => h
        end
    end in
  Session (headers_update h common_headers).

(** The GraphQL document of [fetch_order], character for character. *)
Definition query : string := "
            query fetchOrder($id: Int) {
              order(id: $id) {
                id
                type
                merchantRefId
                deliveryDate
                created
                updated
                timeSlotStart
                timeSlotEnd
                discount
                totalTaxes
                totalCharges
                subtotal
                payableAmount
                walletCreditApplied
                paymentMode
                channel
                channelLogo
                status
                instructions
                nextStates
                nextState
                couponText
                aggregatorPayload
                externalPlatform {
                  id
                  deliveryType
                  bizPlatform {
                    platform {
                      name
                      __typename
                    }
                    __typename
                  }
                  __typename
                }
                taxes {
                  id
                  title
                  value
                  rate
                  __typename
                }
                charges {
                  id
                  title
                  value
                  rate
                  __typename
                }
                address {
                  id
                  name
                  address1
                  address2
                  city
                  pin
                  subLocality
                  __typename
                }
                store {
                  title
                  brand {
                    name
                    __typename
                  }
                  __typename
                }
                customer {
                  id
                  firstName
                  lastName
                  phone
                  email
                  __typename
                }
                items {
                  id
                  title
                  price
                  quantity
                  totalCharge
                  totalTax
                  total
                  discount
                  discountCode
                  instructions
                  taxes {
                    id
                    title
                    value
                    rate
                    __typename
                  }
                  charges {
                    id
                    title
                    value
                    rate
                    __typename
                  }
                  optionsToAdd {
                    id
                    title
                    price
                    priceAtLocation
                    weight
                    description
                    __typename
                  }
                  orderItemOptions {
                    id
                    quantity
                    __typename
                  }
                  __typename
                }
                statusUpdates {
                  id
                  status
                  prevStatus
                  message
                  updatedBy {
                    id
                    username
                    __typename
                  }
                  created
                  __typename
                }
                delivery {
                  id
                  __typename
                }
                paymentTransaction {
                  txnId
                  amount
                  gwTxnId
                  state
                  comments
                  history
                  paymentMethod
                  __typename
                }
                parentOrder {
                  id
                  __typename
                }
                childOrderId
                __typename
              }
            }
            ".

Definition payload (n : Z) : pyval :=
  PDict [ ("operationName", PStr "fetchOrder");
          ("variables", PDict [("id", PInt n)]);
          ("query", PStr query) ].

(** *** [fetch_order] *)

Definition fetch_order (self : UrbanPiperOrderFetcher) (order_id : string) : prog pyval :=
  let session := _create_session self in
  try_except
    (match py_int order_id with
     | None => Raise ValueError
     | Some n =>
         (response <- session_post session (api_base_url self) (payload n) ;;
          if (status_code response =? 200)%Z then
            try_except
              (match json_loads (text response) with
               | Some data => Ret (PDict [("data", data)])
               | None => Raise JSONDecodeError
               end)
              (fun e => match e with JSONDecodeError => Ret PNone | _ => Raise e end)
          else Ret PNone)%prog
     end)
    (fun _ => Ret PNone).

(** *** [save_order] *)

(** [self.orders_dir / f"{order_id}.json"] *)
Definition order_file (self : UrbanPiperOrderFetcher) (order_id : string) : string :=
  path_join (orders_dir self) (order_id +:+ ".json").

Definition save_order (self : UrbanPiperOrderFetcher) (order_id : string)
    (order_data : pyval) : prog unit :=
  let filename := order_file self order_id in
  (open_w filename ;;; dump_close filename (json_dumps order_data))%prog.

(** *** [process_single_order] *)

Definition process_single_order (self : UrbanPiperOrderFetcher) (order_id : string)
    (total_orders current_index : nat) : prog string :=
  let order_file := order_file self order_id in
  (b <- path_exists order_file ;;
   if b : bool then
     (locked_incr Skipped ;;; Ret "skipped")
   else
     (order_data <- fetch_order self order_id ;;
      if truthy order_data then
        (save_order self order_id order_data ;;;
         locked_incr Successful ;;;
         Ret "success")
      else
        (locked_incr Failed ;;; Ret "failed")))%prog.

(** *** [fetch_all_orders] *)

(** The identifiers read from the [ID] column: stripped, blanks skipped. *)
Definition read_order_ids (rows : list string) : list string :=
  List.filter (fun order_id => negb (String.eqb order_id EmptyString))
              (List.map py_strip rows).

(** A submitted task.  Logs keep the newest event first. *)
Inductive future : Type :=
| Pending (p : prog string)
| Running (p : prog string) (log : list event)
| Done (o : outcome) (collected : bool) (log : list event).

Record pool : Type := Pool {
  shared : world;
  futures : list future;
  main : option (prog unit);
  main_log : list event;
  max_workers : nat;
  trace : list (tid * event)
}.

(** A call that has ended becomes a finished future. *)
Definition settle (p : prog string) (log : list event) : future :=
  match p with
  | Ret r => Done (Returned r) false log
  | Raise e => Done (Raised e) false log
  | _ => Running p log
  end.

Definition is_running (f : future) : bool :=
  match f with Running _ _ => true | _ => false end.

Fixpoint first_pending (fs : list future) : option (nat * prog string) :=
  match fs with
  | [] => None
  | Pending p :: _ => Some (0%nat, p)
  | _ :: fs' => prod_map S id <$> first_pending fs'
  end.

(** The scheduler's moves: a free worker takes the oldest waiting task;
    the worker on task [i] performs one action; the main thread's
    [as_completed] loop takes the result of finished task [i]; the main
    thread performs one action of its [except] block. *)
Inductive choice : Type :=
| Dequeue
| Work (i : nat) (o : oracle)
| Collect (i : nat)
| MainStep.

Definition quiet : oracle := Oracle (inl RequestException) None None None.

Definition step (c : choice) (s : pool) : option pool :=
  match c with
  | Dequeue =>
      if (length (List.filter is_running (futures s)) <? max_workers s)%nat then
        match first_pending (futures s) with
        | Some (i, p) =>
            Some (Pool (shared s) (<[i := settle p []]> (futures s)) (main s)
                       (main_log s) (max_workers s) (trace s))
        | None => None
        end
      else None
  | Work i o =>
      match futures s !! i with
      | Some (Running p log) =>
          match exec1 (TTask i) o (shared s) p with
          | Some (w', p', ev) =>
              Some (Pool w' (<[i := settle p' (ev :: log)]> (futures s)) (main s)
                         (main_log s) (max_workers s) ((TTask i, ev) :: trace s))
          | None => None
          end
      | _ => None
      end
  | Collect i =>
      match main s, futures s !! i with
      | None, Some (Done o false log) =>
          let handler :=
            match o with
            | Returned _ => None
            | Raised _ => Some (locked_incr Failed)
            end in
          Some (Pool (shared s) (<[i := Done o true log]> (futures s)) handler
                     (EvResult i o :: main_log s) (max_workers s)
                     ((TMain, EvResult i o) :: trace s))
      | _, _ => None
      end
  | MainStep =>
      match main s with
      | Some p =>
          match exec1 TMain quiet (shared s) p with
          | Some (w', p', ev) =>
              let m := match p' with Ret _ => None | _ => Some p' end in
              Some (Pool w' (futures s) m (ev :: main_log s) (max_workers s)
                         ((TMain, ev) :: trace s))
          | None => None
          end
      | None => None
      end
  end.

Fixpoint run (sched : list choice) (s : pool) : option pool :=
  match sched with
  | [] => Some s
  | c :: sched' =>
      match step c s with
      | Some s' => run sched' s'
      | None => None
      end
  end.

(** The loop over [as_completed] has ended: every future was collected
    and the main thread is past its last [except] block. *)
Definition is_collected (f : future) : bool :=
  match f with Done _ true _ => true | _ => false end.

Definition completed (s : pool) : bool :=
  forallb is_collected (futures s) && bool_decide (main s = None).

(** How a call of [fetch_all_orders] begins. *)
Inductive started : Type :=
| CsvMissing                 (* prints and returns, nothing touched *)
| PoolRefused                (* [ThreadPoolExecutor] raises [ValueError] *)
| Submitted (s : pool).

Definition reset_counters (w : world) : world :=
  set_counter Skipped 0 (set_counter Failed 0 (set_counter Successful 0 w)).

Definition submit_all (self : UrbanPiperOrderFetcher) (order_ids : list string)
  : list future :=
  imap (fun i order_id =>
          Pending (process_single_order self order_id (length order_ids) (S i)))
       order_ids.

(** [csv] is [None] when the file does not exist, else the values of its
    [ID] column. *)
Definition fetch_all_orders (self : UrbanPiperOrderFetcher) (w : world)
    (csv : option (list string)) (workers : Z) : started :=
  match csv with
  | None => CsvMissing
  | Some rows =>
      let order_ids := read_order_ids rows in
      let w := reset_counters w in
      if (workers <=? 0)%Z then PoolRefused
      else Submitted (Pool w (submit_all self order_ids) None [] (Z.to_nat workers) [])
  end.

(** ** Histories of one task

    A thread's program is determined by the program it started with and
    the answers it received: [replay] follows a log (newest event first)
    down the tree. *)
Definition residual {A : Type} (p : prog A) (ev : event) : prog A :=
  match p, ev with
  | PathExists _ k, EvExists _ r => k r
  | SessionPost _ _ _ k, EvPost _ _ _ r => k r
  | Open _ k, EvOpen _ r => k r
  | Dump _ _ k, EvDump _ _ r => k (snd <$> r)
  | Acquire k, EvAcquire => k
  | GetAttr _ k, EvGet _ v => k v
  | SetAttr _ _ k, EvSet _ _ => k
  | Release k, EvRelease => k
  | _, _ => p
  end.

Fixpoint replay {A : Type} (p : prog A) (log : list event) : prog A :=
  match log with
  | [] => p
  | ev :: log' => residual (replay p log') ev
  end.

Lemma exec1_residual {A : Type} t o w (p : prog A) w' p' ev :
  exec1 t o w p = Some (w', p', ev) -> p' = residual p ev.
Proof.
  destruct p; simpl; intros H; try discriminate.
  - by inversion H.
  - by inversion H.
  - destruct (open_fails o); by inversion H.
  - destruct (dump_fails o); by inversion H.
  - destruct (lock w); by inversion H.
  - by inversion H.
  - by inversion H.
  - by inversion H.
Qed.

(** A thread is inside [with self.lock] when its last event is the
    acquisition, the read or the write of the counter. *)
Definition crit (log : list event) : bool :=
  match log with
  | EvAcquire :: _ | EvGet _ _ :: _ | EvSet _ _ :: _ => true
  | _ => false
  end.

(** What an event says about the thread's log before it and about the
    world before and after. *)
Definition effect (t : tid) (f : string) (w : world) (log : list event)
    (ev : event) (w' : world) : Prop :=
  match ev with
  | EvExists p r =>
      crit log = false /\ p = f /\ log = [] /\
      (r = inr true <-> is_Some (files w !! p)) /\ w' = w
  | EvPost _ _ _ _ =>
      crit log = false /\ w' = w
  | EvOpen p r =>
      crit log = false /\ p = f /\ In (EvExists p (inr false)) log /\
      w' = match r with
           | Some _ => w
           | None => set_files (<[p := Writing]> (files w)) w
           end
  | EvDump p d r =>
      crit log = false /\ p = f /\ In (EvExists p (inr false)) log /\
      w' = set_files (<[p := Text (written d r)]> (files w)) w
  | EvAcquire =>
      crit log = false /\ lock w = None /\ w' = set_lock (Some t) w
  | EvGet c v =>
      (exists rest, log = EvAcquire :: rest) /\ v = get_counter c w /\ w' = w
  | EvSet c v =>
      (exists v0 rest, log = EvGet c v0 :: rest /\ v = v0 + 1) /\
      w' = set_counter c v w
  | EvRelease =>
      (exists c v rest, log = EvSet c v :: rest) /\ w' = set_lock None w
  | EvResult _ _ => False
  end.

Section Task.

Variable self : UrbanPiperOrderFetcher.
Variable order_id : string.

Let path : string := order_file self order_id.
Let posted (n : Z) (r : exn + response) : event :=
  EvPost (_create_session self) (api_base_url self) (payload n) r.

(** What a task has done when it reaches [with self.lock], the counter
    it is about to increment and the string it will return. *)
Inductive prelude : counter -> string -> list event -> Prop :=
| pre_exists :
    prelude Skipped "skipped" [EvExists path (inr true)]
| pre_not_int :
    py_int order_id = None ->
    prelude Failed "failed" [EvExists path (inr false)]
| pre_transport n e :
    py_int order_id = Some n ->
    prelude Failed "failed" [posted n (inl e); EvExists path (inr false)]
| pre_status n resp :
    py_int order_id = Some n ->
    status_code resp <> 200 ->
    prelude Failed "failed" [posted n (inr resp); EvExists path (inr false)]
| pre_malformed n resp :
    py_int order_id = Some n ->
    status_code resp = 200 ->
    json_loads (text resp) = None ->
    prelude Failed "failed" [posted n (inr resp); EvExists path (inr false)]
| pre_saved n resp data :
    py_int order_id = Some n ->
    status_code resp = 200 ->
    json_loads (text resp) = Some data ->
    prelude Successful "success"
      [EvDump path (json_dumps (PDict [("data", data)])) None;
       EvOpen path None; posted n (inr resp); EvExists path (inr false)].

(** Every log a call of [process_single_order] can have. *)
Inductive shape : list event -> Prop :=
| sh_start :
    shape []
| sh_stat_failed e :
    shape [EvExists path (inl e)]
| sh_post n :
    py_int order_id = Some n ->
    shape [EvExists path (inr false)]
| sh_open n resp data :
    py_int order_id = Some n ->
    status_code resp = 200 ->
    json_loads (text resp) = Some data ->
    shape [posted n (inr resp); EvExists path (inr false)]
| sh_open_failed n resp data e :
    py_int order_id = Some n ->
    status_code resp = 200 ->
    json_loads (text resp) = Some data ->
    shape [EvOpen path (Some e); posted n (inr resp); EvExists path (inr false)]
| sh_dump n resp data :
    py_int order_id = Some n ->
    status_code resp = 200 ->
    json_loads (text resp) = Some data ->
    shape [EvOpen path None; posted n (inr resp); EvExists path (inr false)]
| sh_dump_failed n resp data k e :
    py_int order_id = Some n ->
    status_code resp = 200 ->
    json_loads (text resp) = Some data ->
    shape [EvDump path (json_dumps (PDict [("data", data)])) (Some (k, e));
           EvOpen path None; posted n (inr resp); EvExists path (inr false)]
| sh_acquire c r pre :
    prelude c r pre -> shape pre
| sh_get c r pre :
    prelude c r pre -> shape (EvAcquire :: pre)
| sh_set c r pre v :
    prelude c r pre -> shape (EvGet c v :: EvAcquire :: pre)
| sh_release c r pre v :
    prelude c r pre ->
    shape (EvSet c (v + 1) :: EvGet c v :: EvAcquire :: pre)
| sh_return c r pre v :
    prelude c r pre ->
    shape (EvRelease :: EvSet c (v + 1) :: EvGet c v :: EvAcquire :: pre).

Definition task : prog string := process_single_order self order_id 0 0.

(** The counting tail, as it stands in the program. *)
Lemma replay_prelude c r pre :
  prelude c r pre ->
  replay task pre =
    Acquire (GetAttr c (fun v => SetAttr c (v + 1) (Release (Ret r)))).
Proof.
  destruct 1; simpl; unfold fetch_order; simpl;
    repeat match goal with
           | H : py_int _ = _ |- _ => rewrite H; simpl
           | H : status_code _ = 200 |- _ => rewrite H; simpl
           | H : json_loads _ = _ |- _ => rewrite H; simpl
           end; try reflexivity.
  destruct (Z.eqb_spec (status_code resp) 200); [contradiction | reflexivity].
Qed.

Ltac known_answers Hx :=
  unfold fetch_order in Hx;
  repeat match goal with
         | H : py_int _ = _ |- _ => rewrite H in Hx; simpl in Hx
         | H : status_code _ = 200 |- _ => rewrite H in Hx; simpl in Hx
         | H : json_loads _ = _ |- _ => rewrite H in Hx; simpl in Hx
         end.

(** One step of a task keeps its log among the shapes, and acts on the
    world as its event says. *)
Lemma task_step t o w log w' p' ev :
  shape log ->
  exec1 t o w (replay task log) = Some (w', p', ev) ->
  shape (ev :: log) /\ effect t path w log ev w'.
Proof.
  intros Hs. destruct Hs; intros Hx.
  - (* the existence check *)
    simpl in Hx. injection Hx as <- <- <-.
    split.
    + destruct (files w !! order_file self order_id) as [c|];
        [eapply sh_acquire, pre_exists|].
      destruct (stat_fails o) as [e|]; [apply sh_stat_failed|].
      destruct (py_int order_id) as [n|] eqn:Hn.
      * by eapply sh_post.
      * by eapply sh_acquire, pre_not_int.
    + simpl. repeat split; try done.
      * destruct (files w !! order_file self order_id); [by eexists|].
        by destruct (stat_fails o).
      * intros [c Hc]. by rewrite Hc.
  - (* the existence check has raised *)
    simpl in Hx. discriminate.
  - (* the request *)
    simpl in Hx. unfold fetch_order in Hx. rewrite H in Hx. simpl in Hx.
    inversion Hx; subst; clear Hx.
    split; [|by repeat split].
    destruct (net o) as [e|resp].
    + by eapply sh_acquire, pre_transport.
    + destruct (Z.eq_dec (status_code resp) 200) as [H200|H200].
      * destruct (json_loads (text resp)) as [data|] eqn:Hd.
        -- by eapply sh_open.
        -- by eapply sh_acquire, pre_malformed.
      * by eapply sh_acquire, pre_status.
  - (* open *)
    simpl in Hx. known_answers Hx.
    destruct (open_fails o) as [e|]; inversion Hx; subst; clear Hx.
    + split; [by eapply sh_open_failed|]. simpl. tauto.
    + split; [by eapply sh_dump|]. simpl. tauto.
  - (* open has raised *)
    simpl in Hx. known_answers Hx. discriminate.
  - (* the end of the write *)
    simpl in Hx. known_answers Hx.
    inversion Hx; subst; clear Hx.
    destruct (dump_fails o) as [[k e]|] eqn:Hk.
    + split; [by eapply sh_dump_failed|]. simpl. tauto.
    + split; [by eapply sh_acquire, pre_saved|]. simpl. tauto.
  - (* the write has raised *)
    simpl in Hx. known_answers Hx. discriminate.
  - (* acquire *)
    rewrite (replay_prelude _ _ _ H) in Hx. simpl in Hx.
    destruct (lock w) eqn:Hl; [discriminate|].
    inversion Hx; subst; clear Hx.
    split; [by eapply sh_get|]. simpl. repeat split; try done.
    by destruct H.
  - (* read the counter *)
    simpl in Hx. rewrite (replay_prelude _ _ _ H) in Hx. simpl in Hx.
    inversion Hx; subst; clear Hx.
    split; [by eapply sh_set|]. simpl. eauto.
  - (* write the counter *)
    simpl in Hx. rewrite (replay_prelude _ _ _ H) in Hx. simpl in Hx.
    inversion Hx; subst; clear Hx.
    split; [by eapply sh_release|]. simpl. eauto.
  - (* release *)
    simpl in Hx. rewrite (replay_prelude _ _ _ H) in Hx. simpl in Hx.
    inversion Hx; subst; clear Hx.
    split; [by eapply sh_return|]. simpl. eauto 6.
  - (* returned *)
    simpl in Hx. rewrite (replay_prelude _ _ _ H) in Hx. simpl in Hx. discriminate.
Qed.

(** The log of a call that has returned [r]: one counter, incremented
    once under the lock. *)
Inductive returned_log (r : string) : list event -> Prop :=
| returned_after c pre v :
    prelude c r pre ->
    returned_log r (EvRelease :: EvSet c (v + 1) :: EvGet c v :: EvAcquire :: pre).

(** The log of a call that has raised [e]: the existence check raised
    it, or [save_order] did, at [open] or during the write. *)
Inductive raised_log (e : exn) : list event -> Prop :=
| raised_stat :
    raised_log e [EvExists path (inl e)]
| raised_open n resp data :
    py_int order_id = Some n ->
    status_code resp = 200 ->
    json_loads (text resp) = Some data ->
    raised_log e [EvOpen path (Some e); posted n (inr resp); EvExists path (inr false)]
| raised_dump n resp data k :
    py_int order_id = Some n ->
    status_code resp = 200 ->
    json_loads (text resp) = Some data ->
    raised_log e [EvDump path (json_dumps (PDict [("data", data)])) (Some (k, e));
                  EvOpen path None; posted n (inr resp); EvExists path (inr false)].

Ltac replay_known :=
  simpl; unfold fetch_order;
  repeat match goal with
         | H : py_int _ = _ |- _ => rewrite H; simpl
         | H : status_code _ = 200 |- _ => rewrite H; simpl
         | H : json_loads _ = _ |- _ => rewrite H; simpl
         | H : prelude _ _ _ |- _ => rewrite (replay_prelude _ _ _ H); simpl
         end.

Lemma shape_returned log r :
  shape log -> replay task log = Ret r -> returned_log r log.
Proof.
  intros Hs. destruct Hs; replay_known; try discriminate.
  intros [= <-]. by constructor.
Qed.

Lemma shape_raised log e :
  shape log -> replay task log = Raise e -> raised_log e log.
Proof.
  intros Hs. destruct Hs; replay_known; try discriminate.
  - intros [= <-]. by eapply raised_stat.
  - intros [= <-]. by eapply raised_open.
  - intros [= <-]. by eapply raised_dump.
Qed.

End Task.

(** ** Reachable pool states *)

Definition fut_log (f : future) : list event :=
  match f with
  | Pending _ => []
  | Running _ log | Done _ _ log => log
  end.

Definition fut_prog (f : future) : prog string :=
  match f with
  | Pending p | Running p _ => p
  | Done (Returned r) _ _ => Ret r
  | Done (Raised e) _ _ => Raise e
  end.

Lemma settle_log p log : fut_log (settle p log) = log.
Proof. by destruct p. Qed.

Lemma settle_prog p log : fut_prog (settle p log) = p.
Proof. by destruct p. Qed.

Lemma settle_not_collected p log : is_collected (settle p log) = false.
Proof. by destruct p. Qed.

(** The moves of [step], as a relation. The worker limit of [Dequeue] is
    dropped: what holds of every state reached by [moves] holds of every
    state reached by [step]. *)
Inductive moves (s : pool) : pool -> Prop :=
| mv_dequeue i p :
    futures s !! i = Some (Pending p) ->
    moves s (Pool (shared s) (<[i := settle p []]> (futures s)) (main s)
                  (main_log s) (max_workers s) (trace s))
| mv_work i o p log w' p' ev :
    futures s !! i = Some (Running p log) ->
    exec1 (TTask i) o (shared s) p = Some (w', p', ev) ->
    moves s (Pool w' (<[i := settle p' (ev :: log)]> (futures s)) (main s)
                  (main_log s) (max_workers s) ((TTask i, ev) :: trace s))
| mv_collect i o log :
    main s = None ->
    futures s !! i = Some (Done o false log) ->
    moves s (Pool (shared s) (<[i := Done o true log]> (futures s))
                  (match o with
                   | Returned _ => None
                   | Raised _ => Some (locked_incr Failed)
                   end)
                  (EvResult i o :: main_log s) (max_workers s)
                  ((TMain, EvResult i o) :: trace s))
| mv_main p w' p' ev :
    main s = Some p ->
    exec1 TMain quiet (shared s) p = Some (w', p', ev) ->
    moves s (Pool w' (futures s)
                  (match p' with Ret _ => None | _ => Some p' end)
                  (ev :: main_log s) (max_workers s) ((TMain, ev) :: trace s)).

Lemma first_pending_lookup fs i p :
  first_pending fs = Some (i, p) -> fs !! i = Some (Pending p).
Proof.
  revert i. induction fs as [|f fs IH]; intros i; simpl; [done|].
  destruct f; try (by intros [= <- <-]);
    destruct (first_pending fs) as [[j q]|]; simpl; try done;
    intros [= <- <-]; by apply IH.
Qed.

Lemma step_moves c s s' : step c s = Some s' -> moves s s'.
Proof.
  destruct c as [|i o|i|]; simpl.
  - destruct (_ <? _)%nat; [|done].
    destruct (first_pending (futures s)) as [[i p]|] eqn:Hp; [|done].
    intros [= <-]. by apply mv_dequeue, first_pending_lookup.
  - destruct (futures s !! i) as [[p|p log|]|] eqn:Hf; try done.
    destruct (exec1 _ _ _ _) as [[[w' p'] ev]|] eqn:Hx; [|done].
    intros [= <-]. by eapply mv_work.
  - destruct (main s) eqn:Hm; [done|].
    destruct (futures s !! i) as [[p|p log|o [] log]|] eqn:Hf; try done.
    intros [= <-]. by apply mv_collect.
  - destruct (main s) as [p|] eqn:Hm; [|done].
    destruct (exec1 _ _ _ _) as [[[w' p'] ev]|] eqn:Hx; [|done].
    intros [= <-]. by eapply mv_main.
Qed.

Inductive reachable (s0 : pool) : pool -> Prop :=
| reach_start : reachable s0 s0
| reach_move s s' : reachable s0 s -> moves s s' -> reachable s0 s'.

Lemma run_reachable sched s0 s : run sched s0 = Some s -> reachable s0 s.
Proof.
  assert (forall sched s1, reachable s0 s1 -> run sched s1 = Some s -> reachable s0 s) as H.
  { clear sched. induction sched as [|c sched IH]; intros s1 Hr; simpl.
    - by intros [= <-].
    - destruct (step c s1) as [s2|] eqn:Hc; [|done].
      apply IH. eapply reach_move; [done|]. by eapply step_moves. }
  apply H. constructor.
Qed.

(** *** The lock and the counters *)

(** With [L t] the log of thread [t]: the lock is held by exactly the
    thread inside its critical section, and a value read from a counter
    under the lock is still the counter's value. *)
Definition locks_ok (L : tid -> list event) (w : world) : Prop :=
  (forall t, lock w = Some t <-> crit (L t) = true) /\
  (forall t c v rest, L t = EvGet c v :: rest -> get_counter c w = v).

Lemma lock_set_counter c v w : lock (set_counter c v w) = lock w.
Proof. by destruct c. Qed.

Lemma get_set_counter c c' v w :
  get_counter c (set_counter c' v w) = if decide (c = c') then v else get_counter c w.
Proof. destruct c, c'; by case_decide. Qed.

Lemma get_counter_set_files c fs w : get_counter c (set_files fs w) = get_counter c w.
Proof. by destruct c. Qed.

Lemma get_counter_set_lock c l w : get_counter c (set_lock l w) = get_counter c w.
Proof. by destruct c. Qed.

Lemma held_twice L w t t' :
  locks_ok L w -> crit (L t) = true -> crit (L t') = true -> t = t'.
Proof.
  intros [Hl _] H1 H2. apply Hl in H1, H2. congruence.
Qed.

Lemma locks_ok_event L L' w w' t f ev :
  locks_ok L w ->
  effect t f w (L t) ev w' ->
  L' t = ev :: L t ->
  (forall t', t' <> t -> L' t' = L t') ->
  locks_ok L' w'.
Proof.
  intros Hok He Ht Hother.
  assert (forall t', crit (L t) = true -> crit (L t') = true -> t' = t) as Huniq
    by (intros; symmetry; by eapply held_twice).
  destruct Hok as [Hl Hr].
  assert (forall t', t' <> t -> crit (L t) = true -> crit (L t') = false) as Hfree.
  { intros t' Hne Hc. destruct (crit (L t')) eqn:Hc'; [|done].
    destruct Hne. by apply Huniq. }
  assert (forall t' c v rest, t' <> t -> crit (L t) = true ->
            L t' = EvGet c v :: rest -> False) as Hnoget.
  { intros t' c v rest Hne Hc Hg. specialize (Hfree t' Hne Hc). by rewrite Hg in Hfree. }
  destruct ev; simpl in He.
  - (* exists *)
    destruct He as (Hc & _ & _ & _ & ->). split.
    + intros t'. destruct (decide (t' = t)) as [->|Hne].
      * rewrite Ht. simpl. rewrite Hl, Hc. done.
      * rewrite Hother by done. apply Hl.
    + intros t' c v rest. destruct (decide (t' = t)) as [->|Hne].
      * rewrite Ht. done.
      * rewrite Hother by done. apply Hr.
  - (* post *)
    destruct He as (Hc & ->). split.
    + intros t'. destruct (decide (t' = t)) as [->|Hne].
      * rewrite Ht. simpl. rewrite Hl, Hc. done.
      * rewrite Hother by done. apply Hl.
    + intros t' c v rest. destruct (decide (t' = t)) as [->|Hne].
      * rewrite Ht. done.
      * rewrite Hother by done. apply Hr.
  - (* open *)
    destruct He as (Hc & _ & _ & ->).
    assert (lock match r with
                 | Some _ => w
                 | None => set_files (<[p:=Writing]> (files w)) w
                 end = lock w)
      as Hlk by by destruct r.
    split.
    + intros t'. rewrite Hlk. destruct (decide (t' = t)) as [->|Hne].
      * rewrite Ht. simpl. rewrite Hl, Hc. done.
      * rewrite Hother by done. apply Hl.
    + intros t' c v rest. destruct (decide (t' = t)) as [->|Hne].
      * rewrite Ht. done.
      * rewrite Hother by done. intros Hg. rewrite <- (Hr _ _ _ _ Hg).
        destruct r; [done|apply get_counter_set_files].
  - (* write *)
    destruct He as (Hc & _ & _ & ->). split.
    + intros t'. simpl. destruct (decide (t' = t)) as [->|Hne].
      * rewrite Ht. simpl. rewrite Hl, Hc. done.
      * rewrite Hother by done. apply Hl.
    + intros t' c v rest. rewrite get_counter_set_files.
      destruct (decide (t' = t)) as [->|Hne].
      * rewrite Ht. done.
      * rewrite Hother by done. apply Hr.
  - (* acquire *)
    destruct He as (Hc & Hnone & ->). split.
    + intros t'. simpl. destruct (decide (t' = t)) as [->|Hne].
      * rewrite Ht. done.
      * rewrite Hother by done. rewrite <- Hl, Hnone. split; [|done]. congruence.
    + intros t' c v rest. rewrite get_counter_set_lock.
      destruct (decide (t' = t)) as [->|Hne].
      * rewrite Ht. done.
      * rewrite Hother by done. apply Hr.
  - (* read *)
    destruct He as ([rest0 Hlog] & -> & ->).
    assert (crit (L t) = true) as Hc by by rewrite Hlog.
    split.
    + intros t'. destruct (decide (t' = t)) as [->|Hne].
      * rewrite Ht. simpl. rewrite Hl, Hc. done.
      * rewrite Hother by done. apply Hl.
    + intros t' c' v' rest. destruct (decide (t' = t)) as [->|Hne].
      * rewrite Ht. by intros [= -> <- _].
      * rewrite Hother by done. apply Hr.
  - (* write the counter *)
    destruct He as ((v0 & rest0 & Hlog & ->) & ->).
    assert (crit (L t) = true) as Hc by by rewrite Hlog.
    split.
    + intros t'. rewrite lock_set_counter. destruct (decide (t' = t)) as [->|Hne].
      * rewrite Ht. simpl. rewrite Hl, Hc. done.
      * rewrite Hother by done. apply Hl.
    + intros t' c' v' rest. destruct (decide (t' = t)) as [->|Hne].
      * rewrite Ht. done.
      * rewrite Hother by done. intros Hg. by destruct (Hnoget _ _ _ _ Hne Hc Hg).
  - (* release *)
    destruct He as ((c0 & v0 & rest0 & Hlog) & ->).
    assert (crit (L t) = true) as Hc by by rewrite Hlog.
    split.
    + intros t'. simpl. destruct (decide (t' = t)) as [->|Hne].
      * rewrite Ht. done.
      * rewrite Hother by done. rewrite (Hfree _ Hne Hc). done.
    + intros t' c' v' rest. destruct (decide (t' = t)) as [->|Hne].
      * rewrite Ht. done.
      * rewrite Hother by done. intros Hg. by destruct (Hnoget _ _ _ _ Hne Hc Hg).
  - done.
Qed.

(** The same when the main thread notes a result: the world is untouched. *)
Lemma locks_ok_result L L' w t i o :
  locks_ok L w ->
  crit (L t) = false ->
  L' t = EvResult i o :: L t ->
  (forall t', t' <> t -> L' t' = L t') ->
  locks_ok L' w.
Proof.
  intros [Hl Hr] Hc Ht Hother. split.
  - intros t'. destruct (decide (t' = t)) as [->|Hne].
    + rewrite Ht. simpl. rewrite Hl, Hc. done.
    + rewrite Hother by done. apply Hl.
  - intros t' c v rest. destruct (decide (t' = t)) as [->|Hne].
    + rewrite Ht. done.
    + rewrite Hother by done. apply Hr.
Qed.

(** *** The main thread *)

Definition settle_main (p : prog unit) : option (prog unit) :=
  match p with Ret _ => None | _ => Some p end.

(** The log of the [as_completed] loop, and where its [except] block is. *)
Inductive main_shape : list event -> option (prog unit) -> Prop :=
| ms_start :
    main_shape [] None
| ms_returned i r log :
    main_shape log None ->
    main_shape (EvResult i (Returned r) :: log) None
| ms_raised i e log :
    main_shape log None ->
    main_shape (EvResult i (Raised e) :: log) (Some (locked_incr Failed))
| ms_get log :
    main_shape log (Some (locked_incr Failed)) ->
    main_shape (EvAcquire :: log)
      (Some (GetAttr Failed (fun v => SetAttr Failed (v + 1) (Release (Ret tt)))))
| ms_set v log :
    main_shape log
      (Some (GetAttr Failed (fun v => SetAttr Failed (v + 1) (Release (Ret tt))))) ->
    main_shape (EvGet Failed v :: log)
      (Some (SetAttr Failed (v + 1) (Release (Ret tt))))
| ms_release v log :
    main_shape log (Some (SetAttr Failed (v + 1) (Release (Ret tt)))) ->
    main_shape (EvSet Failed (v + 1) :: log) (Some (Release (Ret tt)))
| ms_done log :
    main_shape log (Some (Release (Ret tt))) ->
    main_shape (EvRelease :: log) None.

Lemma main_idle_not_crit log : main_shape log None -> crit log = false.
Proof. by inversion 1. Qed.

Lemma main_step f o w log p w' p' ev :
  main_shape log (Some p) ->
  exec1 TMain o w p = Some (w', p', ev) ->
  main_shape (ev :: log) (settle_main p') /\ effect TMain f w log ev w'.
Proof.
  intros Hs Hx. inversion Hs as [| | |? Hp|? ? Hp|? ? Hp|]; subst; simpl in Hx.
  - destruct (lock w) eqn:Hl; [done|]. inversion Hx; subst.
    split; [by apply ms_get|]. by repeat split.
  - inversion Hx; subst. split; [by apply ms_set|].
    inversion Hp; subst. simpl. eauto.
  - inversion Hx; subst. split; [by apply ms_release|].
    inversion Hp; subst. simpl. split; [|done].
    eexists _, _. split; [done|]. lia.
  - inversion Hx; subst. split; [by apply ms_done|].
    inversion Hp; subst. simpl. eauto 6.
Qed.

(** *** Counting *)

(** How often a log writes counter [c]. *)
Fixpoint stores (c : counter) (log : list event) : Z :=
  match log with
  | [] => 0
  | EvSet c' _ :: log' => (if decide (c = c') then 1 else 0) + stores c log'
  | _ :: log' => stores c log'
  end.

(** How many exceptions the main thread has met. *)
Fixpoint results_raised (log : list event) : Z :=
  match log with
  | [] => 0
  | EvResult _ (Raised _) :: log' => 1 + results_raised log'
  | _ :: log' => results_raised log'
  end.

Definition sumZ {A : Type} (g : A -> Z) (l : list A) : Z :=
  foldr (fun x acc => g x + acc) 0 l.

Lemma sumZ_insert {A : Type} (g : A -> Z) (l : list A) i x y :
  l !! i = Some x -> sumZ g (<[i := y]> l) = sumZ g l - g x + g y.
Proof.
  revert i. induction l as [|a l IH]; intros [|i]; simpl; try done.
  - intros [= ->]. lia.
  - intros H. rewrite (IH _ H). lia.
Qed.

Lemma sumZ_ext {A : Type} (g h : A -> Z) (l : list A) :
  (forall x, x ∈ l -> g x = h x) -> sumZ g l = sumZ h l.
Proof.
  induction l as [|a l IH]; simpl; [done|]. intros H.
  rewrite H by constructor. rewrite IH; [done|].
  intros x Hx. apply H. by constructor.
Qed.

Lemma sumZ_plus {A : Type} (g h : A -> Z) (l : list A) :
  sumZ (fun x => g x + h x) l = sumZ g l + sumZ h l.
Proof. induction l as [|a l IH]; simpl; lia. Qed.

Lemma sumZ_const1 {A : Type} (l : list A) : sumZ (fun _ => 1) l = Z.of_nat (length l).
Proof. induction l as [|a l IH]; simpl length; simpl sumZ; lia. Qed.

Lemma lookup_insert_cases {A : Type} (l : list A) i j x y :
  <[i := x]> l !! j = Some y ->
  (j = i /\ y = x) \/ (j <> i /\ l !! j = Some y).
Proof.
  intros H. destruct (decide (j = i)) as [->|Hne].
  - left. split; [done|].
    assert (i < length l)%nat as Hlt.
    { apply lookup_lt_Some in H. by rewrite length_insert in H. }
    rewrite list_lookup_insert_eq in H by done. congruence.
  - right. split; [done|]. by rewrite list_lookup_insert_ne in H.
Qed.

Definition raised_collected (f : future) : Z :=
  match f with Done (Raised _) true _ => 1 | _ => 0 end.

(** An [except] block that has not yet written the counter. *)
Definition handler_owes (m : option (prog unit)) : Z :=
  match m with
  | Some (Acquire _) | Some (GetAttr _ _) | Some (SetAttr _ _ _) => 1
  | _ => 0
  end.

Lemma main_shape_count log m :
  main_shape log m ->
  stores Failed log + handler_owes m = results_raised log /\
  stores Successful log = 0 /\ stores Skipped log = 0.
Proof.
  induction 1; simpl in *; repeat case_decide; try done; lia.
Qed.

(** *** The invariant of a run *)

Section Run.

Variable self : UrbanPiperOrderFetcher.

(** A future is where its log says: the log is one [process_single_order]
    can have, and the program left is what the source leaves after it. *)
Definition fut_ok (order_id : string) (f : future) : Prop :=
  shape self order_id (fut_log f) /\
  fut_prog f = replay (task self order_id) (fut_log f).

Definition log_of (s : pool) (t : tid) : list event :=
  match t with
  | TMain => main_log s
  | TTask i => from_option fut_log [] (futures s !! i)
  end.

Record inv (order_ids : list string) (s : pool) : Prop := Inv {
  inv_futures : Forall2 fut_ok order_ids (futures s);
  inv_main : main_shape (main_log s) (main s);
  inv_locks : locks_ok (log_of s) (shared s);
  inv_counters : forall c,
    get_counter c (shared s) =
      sumZ (fun f => stores c (fut_log f)) (futures s) + stores c (main_log s);
  inv_raised : sumZ raised_collected (futures s) = results_raised (main_log s);
  inv_results : forall i o log,
    futures s !! i = Some (Done o true log) -> In (EvResult i o) (main_log s)
}.

Lemma futures_update ids fs i f f' :
  Forall2 fut_ok ids fs ->
  fs !! i = Some f ->
  (forall id, ids !! i = Some id -> fut_ok id f -> fut_ok id f') ->
  Forall2 fut_ok ids (<[i := f']> fs).
Proof.
  intros HF Hi Hok.
  destruct (Forall2_lookup_r _ _ _ _ _ HF Hi) as (id & Hid & Hf).
  rewrite <- (list_insert_id ids i id Hid).
  apply Forall2_insert; [done|]. by apply Hok.
Qed.

Lemma locks_ok_ext L L' w :
  (forall t, L' t = L t) -> locks_ok L w -> locks_ok L' w.
Proof.
  intros HL [Hl Hr]. split.
  - intros t. rewrite HL. apply Hl.
  - intros t c v rest. rewrite HL. apply Hr.
Qed.

(** An event changes a counter exactly when it writes it, and then by one. *)
Lemma effect_counter L w t f ev w' c :
  locks_ok L w ->
  effect t f w (L t) ev w' ->
  get_counter c w' = get_counter c w + stores c [ev].
Proof.
  intros [_ Hr] He. destruct ev; simpl in *.
  - destruct He as (_ & _ & _ & _ & ->). lia.
  - destruct He as (_ & ->). lia.
  - destruct He as (_ & _ & _ & ->). destruct r; rewrite ?get_counter_set_files; lia.
  - destruct He as (_ & _ & _ & ->). rewrite get_counter_set_files. lia.
  - destruct He as (_ & _ & ->). rewrite get_counter_set_lock. lia.
  - destruct He as (_ & _ & ->). lia.
  - destruct He as ((v0 & rest & Hlog & ->) & ->).
    rewrite get_set_counter. case_decide; [subst|lia].
    rewrite (Hr _ _ _ _ Hlog). lia.
  - destruct He as (_ & ->). rewrite get_counter_set_lock. lia.
  - done.
Qed.

Lemma stores_cons c ev log : stores c (ev :: log) = stores c [ev] + stores c log.
Proof. destruct ev; simpl; lia. Qed.

Lemma effect_not_result t f w log ev w' :
  effect t f w log ev w' -> results_raised (ev :: log) = results_raised log.
Proof. by destruct ev. Qed.

Lemma log_of_insert_same s i f f' w m ml mw tr :
  futures s !! i = Some f ->
  log_of (Pool w (<[i := f']> (futures s)) m ml mw tr) (TTask i) = fut_log f'.
Proof.
  intros Hi. simpl. rewrite list_lookup_insert_eq; [done|].
  by eapply lookup_lt_Some.
Qed.

Lemma log_of_insert_other s i j f' w m ml mw tr :
  j <> i ->
  log_of (Pool w (<[i := f']> (futures s)) m ml mw tr) (TTask j) = log_of s (TTask j).
Proof.
  intros Hne. simpl. by rewrite list_lookup_insert_ne.
Qed.

Lemma inv_move ids s s' : inv ids s -> moves s s' -> inv ids s'.
Proof.
  intros [HF HM HL HC HR HE] Hmv. destruct Hmv as [i p Hi|i o p log w' p' ev Hi Hx|i o log Hm Hi|p w' p' ev Hm Hx].
  - (* a worker takes a task *)
    split; cbn [shared futures main main_log max_workers trace].
    + eapply futures_update; [done..|]. intros id _ [Hs Hp].
      split; rewrite ?settle_log, ?settle_prog; done.
    + done.
    + eapply locks_ok_ext; [|done]. intros [|j]; [done|].
      destruct (decide (j = i)) as [->|Hne].
      * erewrite log_of_insert_same by done. rewrite settle_log. simpl. by rewrite Hi.
      * by rewrite log_of_insert_other.
    + intros c. rewrite (sumZ_insert _ _ _ _ _ Hi), settle_log, HC. simpl. lia.
    + rewrite (sumZ_insert _ _ _ _ _ Hi), <- HR.
      destruct p; simpl; lia.
    + intros j o' log' [[-> Hd]|[_ Hj]]%lookup_insert_cases; [|by eapply HE].
      pose proof (settle_not_collected p []) as Hn. by rewrite <- Hd in Hn.
  - (* a worker performs an action *)
    destruct (Forall2_lookup_r _ _ _ _ _ HF Hi) as (id & Hid & Hs & Hp).
    simpl in Hs, Hp. subst p.
    destruct (task_step _ _ _ _ _ _ _ _ _ Hs Hx) as [Hs' He].
    assert (locks_ok (log_of s) (shared s)) as HL0 by done.
    assert (log_of s (TTask i) = log) as Hlog by (simpl; by rewrite Hi).
    rewrite <- Hlog in He.
    split; cbn [shared futures main main_log max_workers trace].
    + eapply futures_update; [done..|]. intros id' Hid' _.
      assert (id' = id) as -> by congruence.
      split; rewrite ?settle_log, ?settle_prog; [done|].
      simpl. by eapply exec1_residual.
    + done.
    + eapply locks_ok_event; [exact HL0|exact He|..].
      * erewrite log_of_insert_same by done. by rewrite settle_log, Hlog.
      * intros [|j] Hne; [done|]. rewrite log_of_insert_other; [done|]. congruence.
    + intros c. rewrite (sumZ_insert _ _ _ _ _ Hi), settle_log.
      rewrite (effect_counter _ _ _ _ _ _ c HL0 He), HC.
      rewrite (stores_cons c ev log). simpl fut_log. lia.
    + rewrite (sumZ_insert _ _ _ _ _ Hi), <- HR.
      destruct p'; simpl; lia.
    + intros j o' log' [[-> Hd]|[_ Hj]]%lookup_insert_cases; [|by eapply HE].
      pose proof (settle_not_collected p' (ev :: log)) as Hn. by rewrite <- Hd in Hn.
  - (* the main thread takes a result *)
    split; cbn [shared futures main main_log max_workers trace].
    + eapply futures_update; [done..|]. by intros id _ [Hs Hp].
    + rewrite Hm in HM. destruct o; by constructor.
    + eapply (locks_ok_result (log_of s) _ _ TMain i o); [done| |done|].
      * apply main_idle_not_crit. by rewrite <- Hm.
      * intros [|j] Hne; [done|]. clear Hne.
        destruct (decide (j = i)) as [->|Hne].
        -- erewrite log_of_insert_same by done. simpl. by rewrite Hi.
        -- by rewrite log_of_insert_other.
    + intros c. rewrite (sumZ_insert _ _ _ _ _ Hi), HC. simpl. lia.
    + rewrite (sumZ_insert _ _ _ _ _ Hi). destruct o; simpl; lia.
    + intros j o' log' [[-> [= <- <-]]|[_ Hj]]%lookup_insert_cases.
      * by left.
      * right. by eapply HE.
  - (* the main thread performs an action of its handler *)
    rewrite Hm in HM.
    destruct (main_step EmptyString _ _ _ _ _ _ _ HM Hx) as [HM' He].
    assert (locks_ok (log_of s) (shared s)) as HL0 by done.
    change (main_log s) with (log_of s TMain) in He.
    split; cbn [shared futures main main_log max_workers trace].
    + done.
    + exact HM'.
    + eapply locks_ok_event; [exact HL0|exact He|done|]. by intros [|j] Hne.
    + intros c. rewrite (effect_counter _ _ _ _ _ _ c HL0 He), HC.
      rewrite (stores_cons c ev (main_log s)). lia.
    + rewrite HR. symmetry. by eapply effect_not_result.
    + intros j o' log' Hj. right. by eapply HE.
Qed.

Lemma inv_reachable ids s0 s : inv ids s0 -> reachable s0 s -> inv ids s.
Proof. intros H0. induction 1; [done|]. by eapply inv_move. Qed.

(** *** The state [fetch_all_orders] submits *)

Lemma submit_all_ok ids : Forall2 fut_ok ids (submit_all self ids).
Proof.
  unfold submit_all. generalize (length ids). intros n.
  assert (forall k, Forall2 fut_ok ids
            (imap (fun i order_id =>
                     Pending (process_single_order self order_id n (S (k + i)))) ids)) as H.
  { induction ids as [|id ids' IH]; intros k; [constructor|].
    rewrite imap_cons. constructor.
    - split; [constructor|reflexivity].
    - eapply Forall2_impl; [apply (IH (S k))|]. intros ? ? [? ?]. by split. }
  apply (H 0%nat).
Qed.

Lemma submit_all_pending ids :
  Forall (fun f => exists p, f = Pending p) (submit_all self ids).
Proof.
  unfold submit_all. generalize (length ids). intros n.
  assert (forall g : nat -> string -> prog string,
            Forall (fun f => exists p, f = Pending p)
                   (imap (fun i x => Pending (g i x)) ids)) as H.
  { induction ids as [|id ids' IH]; intros g; [constructor|].
    rewrite imap_cons. constructor; [by eexists|]. apply (IH (fun i => g (S i))). }
  apply (H (fun i order_id => process_single_order self order_id n (S i))).
Qed.

Lemma sumZ_zero {A : Type} (g : A -> Z) (l : list A) :
  Forall (fun x => g x = 0) l -> sumZ g l = 0.
Proof. induction 1 as [|x l Hx _ IH]; simpl; lia. Qed.

Lemma inv_submitted w ids mw :
  lock w = None ->
  inv ids (Pool (reset_counters w) (submit_all self ids) None [] mw []).
Proof.
  intros Hl. pose proof (submit_all_pending ids) as HP.
  split; cbn [shared futures main main_log max_workers trace].
  - apply submit_all_ok.
  - constructor.
  - assert (forall t, log_of (Pool (reset_counters w) (submit_all self ids) None [] mw []) t = [])
      as Hlogs.
    { intros [|i]; [done|]. simpl.
      destruct (submit_all self ids !! i) as [f|] eqn:Hf; [|done].
      destruct (proj1 (Forall_lookup _ _) HP _ _ Hf) as [p ->]. done. }
    split.
    + intros t. rewrite Hlogs. simpl. rewrite Hl. done.
    + intros t c v rest. by rewrite Hlogs.
  - intros c. rewrite sumZ_zero; [by destruct c|].
    eapply Forall_impl; [exact HP|]. by intros f [p ->].
  - rewrite sumZ_zero; [done|].
    eapply Forall_impl; [exact HP|]. by intros f [p ->].
  - intros i o log Hf.
    by destruct (proj1 (Forall_lookup _ _) HP _ _ Hf) as [p ?].
Qed.

(** *** Completed runs *)

Definition returned_with (r : string) (f : future) : Z :=
  match f with
  | Done (Returned r') _ _ => if decide (r' = r) then 1 else 0
  | _ => 0
  end.

Definition has_raised (f : future) : Z :=
  match f with Done (Raised _) _ _ => 1 | _ => 0 end.

Lemma completed_spec s :
  completed s = true <->
  Forall (fun f => is_collected f = true) (futures s) /\ main s = None.
Proof.
  unfold completed. rewrite andb_true_iff, forallb_forall, bool_decide_eq_true.
  rewrite Forall_forall. setoid_rewrite list_elem_of_In. done.
Qed.

(** A collected future has returned after one increment, or has raised
    out of the existence check or out of [save_order] without any. *)
Lemma collected_cases id f :
  fut_ok id f -> is_collected f = true ->
  (exists r log, f = Done (Returned r) true log /\ returned_log self id r log) \/
  (exists e log, f = Done (Raised e) true log /\ raised_log self id e log).
Proof.
  intros [Hs Hp] Hc. destruct f as [|?|[r|e] [] log]; try done; simpl in *.
  - left. exists r, log. split; [done|]. symmetry in Hp. by eapply shape_returned.
  - right. exists e, log. symmetry in Hp. split; [done|]. by eapply shape_raised.
Qed.

Lemma prelude_result id c r pre :
  prelude self id c r pre ->
  stores Successful pre = 0 /\ stores Failed pre = 0 /\ stores Skipped pre = 0 /\
  ((c = Successful /\ r = "success") \/ (c = Failed /\ r = "failed") \/
   (c = Skipped /\ r = "skipped")).
Proof. destruct 1; simpl; auto 10. Qed.

Lemma collected_counts id f :
  fut_ok id f -> is_collected f = true ->
  stores Successful (fut_log f) = returned_with "success" f /\
  stores Failed (fut_log f) = returned_with "failed" f /\
  stores Skipped (fut_log f) = returned_with "skipped" f /\
  raised_collected f = has_raised f /\
  returned_with "success" f + returned_with "failed" f
    + returned_with "skipped" f + has_raised f = 1.
Proof.
  intros Hok Hc.
  destruct (collected_cases _ _ Hok Hc) as [(r & log & -> & Hl)|(e & log & -> & Hl)].
  - destruct Hl as [c pre v Hpre].
    destruct (prelude_result _ _ _ _ Hpre) as (H1 & H2 & H3 & Hcr).
    simpl. rewrite H1, H2, H3.
    destruct Hcr as [[-> ->]|[[-> ->]|[-> ->]]];
      repeat case_decide; try done; lia.
  - destruct Hl; simpl; done.
Qed.

(** The tally of a completed run: each counter is the number of tasks
    with the matching outcome; a task that raised counts as failed. *)
Lemma tally_completed ids s :
  inv ids s -> completed s = true ->
  successful_fetches (shared s) = sumZ (returned_with "success") (futures s) /\
  failed_fetches (shared s) =
    sumZ (returned_with "failed") (futures s) + sumZ has_raised (futures s) /\
  skipped_fetches (shared s) = sumZ (returned_with "skipped") (futures s) /\
  successful_fetches (shared s) + failed_fetches (shared s)
    + skipped_fetches (shared s) = Z.of_nat (length ids).
Proof.
  intros [HF HM HL HC HR _] [Hall Hmain]%completed_spec.
  rewrite Hmain in HM.
  destruct (main_shape_count _ _ HM) as (Hf & Hs & Hk). simpl in Hf.
  assert (forall f, f ∈ futures s ->
            stores Successful (fut_log f) = returned_with "success" f /\
            stores Failed (fut_log f) = returned_with "failed" f /\
            stores Skipped (fut_log f) = returned_with "skipped" f /\
            raised_collected f = has_raised f /\
            returned_with "success" f + returned_with "failed" f
              + returned_with "skipped" f + has_raised f = 1) as Heach.
  { intros f Hin. apply list_elem_of_lookup in Hin as [i Hi].
    destruct (Forall2_lookup_r _ _ _ _ _ HF Hi) as (id & _ & Hok).
    eapply collected_counts; [done|]. by eapply (proj1 (Forall_lookup _ _) Hall). }
  pose proof (HC Successful) as HCs. pose proof (HC Failed) as HCf.
  pose proof (HC Skipped) as HCk. simpl in HCs, HCf, HCk.
  rewrite (sumZ_ext _ (returned_with "success")) in HCs by (intros; by apply Heach).
  rewrite (sumZ_ext _ (returned_with "failed")) in HCf by (intros; by apply Heach).
  rewrite (sumZ_ext _ (returned_with "skipped")) in HCk by (intros; by apply Heach).
  rewrite (sumZ_ext _ has_raised) in HR by (intros; by apply Heach).
  assert (sumZ (returned_with "success") (futures s)
          + sumZ (returned_with "failed") (futures s)
          + sumZ (returned_with "skipped") (futures s)
          + sumZ has_raised (futures s) = Z.of_nat (length ids)) as Hsum.
  { rewrite (Forall2_length _ _ _ HF), <- sumZ_const1.
    rewrite <- !sumZ_plus. apply sumZ_ext. intros; by apply Heach. }
  repeat split; lia.
Qed.

(** *** The files *)

(** No two identifiers of the batch name the same file. Distinct
    identifiers are not enough: [7] and [./7] name one file. *)
Definition distinct_files (ids : list string) : Prop :=
  NoDup (order_file self <$> ids).

(** The file a task's own events leave at its path. *)
Fixpoint view (init : option content) (log : list event) : option content :=
  match log with
  | [] => init
  | EvOpen _ None :: _ => Some Writing
  | EvDump _ d r :: _ => Some (Text (written d r))
  | _ :: log' => view init log'
  end.

Definition files_after (ev : event) (fs : gmap string content) : gmap string content :=
  match ev with
  | EvOpen p None => <[p := Writing]> fs
  | EvDump p d r => <[p := Text (written d r)]> fs
  | _ => fs
  end.

Lemma effect_files t f w log ev w' :
  effect t f w log ev w' -> files w' = files_after ev (files w).
Proof.
  destruct ev; simpl; try done.
  - by intros (_ & _ & _ & _ & ->).
  - by intros (_ & ->).
  - intros (_ & _ & _ & ->). by destruct r.
  - by intros (_ & _ & _ & ->).
  - by intros (_ & _ & ->).
  - by intros (_ & _ & ->).
  - intros (_ & ->). by destruct c.
  - by intros (_ & ->).
Qed.

Lemma files_after_other ev fs f p :
  (forall q r, ev = EvOpen q r -> q = f) ->
  (forall q d r, ev = EvDump q d r -> q = f) ->
  p <> f -> files_after ev fs !! p = fs !! p.
Proof.
  intros Ho Hd Hne. destruct ev as [| |q r|q d r| | | | |]; simpl; try done.
  - destruct r; [done|]. rewrite lookup_insert_ne; [done|].
    rewrite (Ho q None eq_refl). done.
  - rewrite lookup_insert_ne; [done|]. rewrite (Hd q d r eq_refl). done.
Qed.

Lemma files_after_mono ev fs p :
  is_Some (fs !! p) -> is_Some (files_after ev fs !! p).
Proof.
  intros Hp. destruct ev as [| |q r|q d r| | | | |]; simpl; try done.
  - destruct r; [done|]. destruct (decide (q = p)) as [->|Hne].
    + rewrite lookup_insert_eq. by eexists.
    + by rewrite lookup_insert_ne.
  - destruct (decide (q = p)) as [->|Hne].
    + rewrite lookup_insert_eq. by eexists.
    + by rewrite lookup_insert_ne.
Qed.

Lemma main_step_files o w log p w' p' ev :
  main_shape log (Some p) ->
  exec1 TMain o w p = Some (w', p', ev) ->
  files w' = files w.
Proof.
  intros Hs Hx. inversion Hs; subst; simpl in Hx.
  - destruct (lock w); [done|]. by inversion Hx.
  - by inversion Hx.
  - by inversion Hx.
  - by inversion Hx.
Qed.

(** With [fs0] the files before the run: a file that was there is
    unchanged; a task only finds a path absent, or refused, that was
    absent at the start; a file once opened for writing stays; and, when
    no two identifiers name the same file, the file of a task is what
    its own events left. *)
Record files_inv (fs0 : gmap string content) (ids : list string) (s : pool) : Prop :=
  FilesInv {
  fi_kept : forall p c, fs0 !! p = Some c -> files (shared s) !! p = Some c;
  fi_absent : forall j f p r,
    futures s !! j = Some f -> In (EvExists p r) (fut_log f) -> r <> inr true ->
    fs0 !! p = None;
  fi_present : forall j f p,
    futures s !! j = Some f -> In (EvOpen p None) (fut_log f) ->
    is_Some (files (shared s) !! p);
  fi_own : distinct_files ids -> forall j id f,
    ids !! j = Some id -> futures s !! j = Some f ->
    files (shared s) !! order_file self id =
      view (fs0 !! order_file self id) (fut_log f)
}.

(** Replacing a future by one with the same log changes nothing here. *)
Lemma files_inv_same_log fs0 ids s i f f' w' m ml mw tr :
  files_inv fs0 ids s ->
  futures s !! i = Some f ->
  fut_log f' = fut_log f ->
  files w' = files (shared s) ->
  files_inv fs0 ids (Pool w' (<[i := f']> (futures s)) m ml mw tr).
Proof.
  intros [Hk Ha Hp Ho] Hi Hlog Hfiles.
  split; cbn [shared futures]; rewrite ?Hfiles.
  - done.
  - intros j g p r [[-> ->]|[_ Hj]]%lookup_insert_cases.
    + rewrite Hlog. by eapply Ha.
    + by eapply Ha.
  - intros j g p [[-> ->]|[_ Hj]]%lookup_insert_cases.
    + rewrite Hlog. by eapply Hp.
    + by eapply Hp.
  - intros Hnd j id g Hid [[-> ->]|[_ Hj]]%lookup_insert_cases.
    + rewrite Hlog. by eapply Ho.
    + by eapply Ho.
Qed.

Lemma files_inv_quiet fs0 ids s s' :
  files_inv fs0 ids s ->
  futures s' = futures s ->
  files (shared s') = files (shared s) ->
  files_inv fs0 ids s'.
Proof.
  intros [Hk Ha Hp Ho] Hf Hfiles. split; rewrite ?Hf, ?Hfiles; done.
Qed.

Lemma view_cons init ev log f :
  (forall q r, ev = EvOpen q r -> q = f) ->
  (forall q d r, ev = EvDump q d r -> q = f) ->
  forall fs, fs !! f = view init log ->
  files_after ev fs !! f = view init (ev :: log).
Proof.
  intros Ho Hd fs Hfs. destruct ev as [| |q r|q d r| | | | |]; simpl; try done.
  - destruct r; [done|]. rewrite (Ho q None eq_refl). by rewrite lookup_insert_eq.
  - rewrite (Hd q d r eq_refl). by rewrite lookup_insert_eq.
Qed.

Lemma distinct_files_lookup ids i j id id' :
  distinct_files ids -> ids !! i = Some id -> ids !! j = Some id' ->
  order_file self id = order_file self id' -> i = j.
Proof.
  intros Hnd Hi Hj Heq. eapply (NoDup_lookup _ i j); [exact Hnd| |].
  - by rewrite list_lookup_fmap, Hi.
  - by rewrite list_lookup_fmap, Hj, Heq.
Qed.

Lemma files_inv_move fs0 ids s s' :
  inv ids s -> files_inv fs0 ids s -> moves s s' -> files_inv fs0 ids s'.
Proof.
  intros HI HFI Hmv.
  destruct Hmv as [i p Hi|i o p log w' p' ev Hi Hx|i o log Hm Hi|p w' p' ev Hm Hx].
  - eapply files_inv_same_log; [done..|by rewrite settle_log|done].
  - destruct HI as [HF _ _ _ _ _].
    destruct (Forall2_lookup_r _ _ _ _ _ HF Hi) as (id & Hid & Hs & Hp).
    simpl in Hs, Hp. subst p.
    destruct (task_step _ _ _ _ _ _ _ _ _ Hs Hx) as [_ He].
    pose proof (effect_files _ _ _ _ _ _ He) as Hfiles.
    destruct HFI as [Hk Ha Hpr Ho].
    assert (forall q r, ev = EvOpen q r ->
              q = order_file self id /\ In (EvExists q (inr false)) log) as Hopen.
    { intros q r ->. simpl in He. tauto. }
    assert (forall q d r, ev = EvDump q d r ->
              q = order_file self id /\ In (EvExists q (inr false)) log) as Hdump.
    { intros q d r ->. simpl in He. tauto. }
    assert (forall q r, ev = EvExists q r -> r <> inr true ->
              files (shared s) !! q = None) as Hex.
    { intros q r -> Hr. simpl in He. destruct He as (_ & _ & _ & Hb & _).
      destruct (files (shared s) !! q) as [c|]; [|done].
      destruct Hr. apply Hb. by eexists. }
    assert (forall p0, p0 <> order_file self id ->
              files_after ev (files (shared s)) !! p0 = files (shared s) !! p0) as Hother.
    { intros p0 Hne. apply (files_after_other _ _ (order_file self id)); [| |done].
      - intros q r Hev. by destruct (Hopen _ _ Hev).
      - intros q d r Hev. by destruct (Hdump _ _ _ Hev). }
    assert (files_after ev (files (shared s)) = files (shared s) \/
            In (EvExists (order_file self id) (inr false)) log) as Hchg.
    { destruct ev as [| |q r|q d r| | | | |]; simpl; auto.
      - destruct (Hopen q r eq_refl) as [-> ?]. by right.
      - destruct (Hdump q d r eq_refl) as [-> ?]. by right. }
    split; cbn [shared futures]; rewrite ?Hfiles.
    + intros p0 c Hc. destruct Hchg as [->|Hin]; [by apply Hk|].
      rewrite Hother; [by apply Hk|].
      intros ->. rewrite (Ha _ _ _ _ Hi Hin) in Hc; done.
    + intros j g q r [[-> ->]|[_ Hj]]%lookup_insert_cases; [|by eapply Ha].
      rewrite settle_log. intros [->|Hin] Hr; [|by eapply (Ha i)].
      destruct (fs0 !! q) as [c|] eqn:Hc; [|done].
      specialize (Hex q r eq_refl Hr). rewrite (Hk _ _ Hc) in Hex. done.
    + intros j g q [[-> ->]|[_ Hj]]%lookup_insert_cases.
      * rewrite settle_log. intros [->|Hin].
        -- simpl. rewrite lookup_insert_eq. by eexists.
        -- apply files_after_mono. by eapply (Hpr i).
      * intros Hin. apply files_after_mono. by eapply Hpr.
    + intros Hnd j id' g Hid' [[-> ->]|[Hne Hj]]%lookup_insert_cases.
      * assert (id' = id) as -> by congruence. rewrite settle_log.
        apply view_cons.
        -- intros q r Hev. by destruct (Hopen _ _ Hev).
        -- intros q d r Hev. by destruct (Hdump _ _ _ Hev).
        -- by apply (Ho Hnd i id (Running (replay (task self id) log) log)).
      * rewrite Hother; [by eapply Ho|].
        intros Heq. destruct Hne. symmetry.
        by eapply (distinct_files_lookup ids i j id id').
  - eapply files_inv_same_log; [done..|done|done].
  - destruct HI as [_ HM _ _ _ _]. rewrite Hm in HM.
    eapply files_inv_quiet; [done|done|]. simpl.
    by eapply main_step_files.
Qed.

Lemma files_inv_submitted w ids mw :
  files_inv (files w) ids (Pool (reset_counters w) (submit_all self ids) None [] mw []).
Proof.
  pose proof (submit_all_pending ids) as HP.
  assert (forall j f, submit_all self ids !! j = Some f -> fut_log f = []) as Hlogs.
  { intros j f Hf. destruct (proj1 (Forall_lookup _ _) HP _ _ Hf) as [p ->]. done. }
  split; cbn [shared futures].
  - done.
  - intros j f p r Hf. by rewrite (Hlogs _ _ Hf).
  - intros j f p Hf. by rewrite (Hlogs _ _ Hf).
  - intros _ j id f _ Hf. by rewrite (Hlogs _ _ Hf).
Qed.

Lemma files_inv_reachable fs0 ids s0 s :
  inv ids s0 -> files_inv fs0 ids s0 -> reachable s0 s -> files_inv fs0 ids s.
Proof.
  intros H0 F0. induction 1 as [|s s' Hr IH Hm]; [done|].
  eapply files_inv_move; [|exact IH|exact Hm]. by eapply inv_reachable.
Qed.

End Run.

(** ** Runs of [fetch_all_orders]

    [fetch_all_orders_run self w csv workers sched] is the pool state the
    schedule [sched] leads to, from the state the call submits. *)
Definition fetch_all_orders_run (self : UrbanPiperOrderFetcher) (w : world)
    (csv : option (list string)) (workers : Z) (sched : list choice) : option pool :=
  match fetch_all_orders self w csv workers with
  | Submitted s0 => run sched s0
  | _ => None
  end.

(** *** Three sentences of the specification the code does not satisfy

    They are stated here as written, to be refuted on concrete runs. *)



(** "An existence check never observes a partially written record":
    whenever a check has just found a file that was not there before the
    run, the file holds a complete dump. *)
Definition exists_sees_complete_records (self : UrbanPiperOrderFetcher) (w : world)
    (csv : option (list string)) (workers : Z) : Prop :=
  forall sched s j p tr,
    fetch_all_orders_run self w csv workers sched = Some s ->
    trace s = (TTask j, EvExists p (inr true)) :: tr ->
    files w !! p = None ->
    exists d, files (shared s) !! p = Some (Text (json_dumps d)).

(** A future's events, oldest first. *)
Definition history (f : future) : list event := rev (fut_log f).

Lemma run_invariants self w rows workers sched s :
  lock w = None ->
  fetch_all_orders_run self w (Some rows) workers sched = Some s ->
  inv self (read_order_ids rows) s /\
  files_inv self (files w) (read_order_ids rows) s.
Proof.
  intros Hl. unfold fetch_all_orders_run, fetch_all_orders.
  destruct (workers <=? 0)%Z; [done|]. intros Hr%run_reachable.
  pose proof (inv_submitted self w (read_order_ids rows) (Z.to_nat workers) Hl) as H0.
  split.
  - by eapply inv_reachable.
  - eapply files_inv_reachable; [exact H0| |exact Hr].
    apply (files_inv_submitted self w).
Qed.

(** In a completed run every identifier has a collected future. *)
Lemma completed_lookup self ids s i id :
  inv self ids s -> completed s = true -> ids !! i = Some id ->
  exists f, futures s !! i = Some f /\ fut_ok self id f /\ is_collected f = true.
Proof.
  intros [HF _ _ _ _ _] [Hall _]%completed_spec Hid.
  destruct (Forall2_lookup_l _ _ _ _ _ HF Hid) as (f & Hf & Hok).
  exists f. split; [done|]. split; [done|].
  by eapply (proj1 (Forall_lookup _ _) Hall).
Qed.





Ltac in_log H :=
  simpl in H;
  repeat match type of H with
         | _ \/ _ => destruct H as [H|H]
         | False => destruct H
         end;
  try discriminate H.


Lemma sumZ_le_length {A : Type} (g : A -> Z) (l : list A) :
  (forall x, x ∈ l -> 0 <= g x <= 1) -> sumZ g l <= Z.of_nat (length l).
Proof.
  induction l as [|a l IH]; intros Hb; simpl sumZ; simpl length; [lia|].
  pose proof (Hb a ltac:(constructor)).
  assert (sumZ g l <= Z.of_nat (length l)) by (apply IH; intros; apply Hb; by constructor).
  lia.
Qed.


Lemma sumZ_const {A : Type} (g : A -> Z) (l : list A) k :
  (forall x, x ∈ l -> g x = k) -> sumZ g l = k * Z.of_nat (length l).
Proof.
  induction l as [|a l IH]; intros Hg; simpl sumZ; simpl length; [lia|].
  rewrite (Hg a) by constructor. rewrite IH; [lia|]. intros; apply Hg; by constructor.
Qed.



(** *** The session *)

Lemma header_get_update_other h kvs name :
  Forall (fun kv => lower kv.1 <> lower name) kvs ->
  header_get (headers_update h kvs) name = header_get h name.
Proof.
  unfold headers_update. revert h.
  induction kvs as [|kv kvs IH]; intros h Hne; simpl; [done|].
  inversion Hne; subst. rewrite IH by done.
  unfold header_get, header_set. by rewrite lookup_insert_ne.
Qed.

Lemma header_get_update_one h k v :
  header_get (headers_update h [(k, v)]) k = Some v.
Proof. unfold header_get, headers_update, header_set. simpl. by rewrite lookup_insert_eq. Qed.

Lemma common_headers_no_credentials name :
  lower name = "cookie" \/ lower name = "authorization" ->
  Forall (fun kv => lower kv.1 <> lower name) common_headers.
Proof.
  intros H. unfold common_headers.
  repeat constructor; simpl fst; intros Heq; rewrite <- Heq in H;
    vm_compute in H; by destruct H.
Qed.

(** *** Every batch can be run to its end

    One schedule that always completes: the tasks one after the other,
    each collected when it ends, over a network that is down. It shows
    that the statements about completed runs below are about something. *)
Section Progress.

Local Open Scope list_scope.

Variable self : UrbanPiperOrderFetcher.

Definition waiting (ids : list string) : list future :=
  (fun id => Pending (task self id)) <$> ids.

Lemma submit_all_waiting ids : submit_all self ids = waiting ids.
Proof.
  unfold submit_all, waiting. generalize (length ids). intros n.
  change (imap (const (fun id => Pending (task self id))) ids
          = (fun id => Pending (task self id)) <$> ids).
  apply imap_const.
Qed.

Lemma first_pending_middle done p rest :
  Forall (fun f => is_collected f = true) done ->
  first_pending (done ++ Pending p :: rest) = Some (length done, p).
Proof.
  induction 1 as [|f done Hf _ IH]; simpl; [done|].
  destruct f as [| |o [] log]; try done. by rewrite IH.
Qed.

Lemma no_running done ids :
  Forall (fun f => is_collected f = true) done ->
  List.filter is_running (done ++ waiting ids) = [].
Proof.
  intros Hd. rewrite List.filter_app.
  assert (List.filter is_running done = []) as ->.
  { induction Hd as [|f done Hf _ IH]; simpl; [done|].
    by destruct f as [| |o [] log]. }
  simpl. induction ids as [|id ids IH]; simpl; done.
Qed.

Lemma insert_middle {A : Type} (l1 l2 : list A) (x y : A) :
  <[List.length l1 := y]> (l1 ++ x :: l2) = l1 ++ y :: l2.
Proof. induction l1 as [|a l1 IH]; simpl; [done|]. by rewrite IH. Qed.

Lemma work_step s done p log rest o w' p' ev :
  futures s = done ++ Running p log :: rest ->
  exec1 (TTask (length done)) o (shared s) p = Some (w', p', ev) ->
  step (Work (length done) o) s
  = Some (Pool w' (done ++ settle p' (ev :: log) :: rest) (main s) (main_log s)
               (max_workers s) ((TTask (length done), ev) :: trace s)).
Proof.
  intros Hf Hx. unfold step.
  rewrite Hf, list_lookup_middle by done. rewrite Hx. by rewrite insert_middle.
Qed.

(** The counting tail runs through when the lock is free. *)
Lemma count_runs w done c r log rest m ml mw tr :
  lock w = None ->
  exists w' log' tr',
    run (replicate 4 (Work (length done) quiet))
        (Pool w (done ++ Running (Acquire (GetAttr c (fun v =>
                                    SetAttr c (v + 1) (Release (Ret r))))) log :: rest)
              m ml mw tr)
    = Some (Pool w' (done ++ Done (Returned r) false log' :: rest) m ml mw tr') /\
    lock w' = None.
Proof.
  intros Hl. do 3 eexists. split.
  - cbn [replicate run].
    erewrite work_step; [|reflexivity|simpl; rewrite Hl; reflexivity].
    cbn [settle]. erewrite work_step; [|reflexivity|reflexivity].
    cbn [settle]. erewrite work_step; [|reflexivity|reflexivity].
    cbn [settle]. erewrite work_step; [|reflexivity|reflexivity].
    reflexivity.
  - done.
Qed.

(** A started task runs to its [return]. *)
Lemma task_runs w done id rest m ml mw tr :
  lock w = None ->
  exists sched w' r log tr',
    run sched (Pool w (done ++ Running (task self id) [] :: rest) m ml mw tr)
    = Some (Pool w' (done ++ Done (Returned r) false log :: rest) m ml mw tr') /\
    lock w' = None.
Proof.
  intros Hl.
  destruct (files w !! order_file self id) as [c0|] eqn:Hb.
  - destruct (count_runs w done Skipped "skipped"
                [EvExists (order_file self id) (inr true)] rest m ml mw
                ((TTask (length done), EvExists (order_file self id) (inr true)) :: tr) Hl)
      as (w' & log' & tr' & Hrun & Hl').
    exists (Work (length done) quiet :: replicate 4 (Work (length done) quiet)).
    exists w', "skipped", log', tr'. split; [|done].
    cbn [run]. erewrite work_step; [|reflexivity|reflexivity].
    cbn [shared]. rewrite Hb. exact Hrun.
  - destruct (py_int id) as [n|] eqn:Hn.
    + destruct (count_runs w done Failed "failed"
                  [EvPost (_create_session self) (api_base_url self) (payload n)
                          (inl RequestException);
                   EvExists (order_file self id) (inr false)] rest m ml mw
                  ((TTask (length done),
                    EvPost (_create_session self) (api_base_url self) (payload n)
                           (inl RequestException))
                   :: (TTask (length done), EvExists (order_file self id) (inr false)) :: tr) Hl)
        as (w' & log' & tr' & Hrun & Hl').
      exists (Work (length done) quiet :: Work (length done) quiet
                :: replicate 4 (Work (length done) quiet)).
      exists w', "failed", log', tr'. split; [|done].
      cbn [run]. erewrite work_step; [|reflexivity|reflexivity].
      cbn [shared]. rewrite Hb. simpl settle. unfold fetch_order. rewrite Hn.
      simpl settle. erewrite work_step; [|reflexivity|reflexivity].
      exact Hrun.
    + destruct (count_runs w done Failed "failed"
                  [EvExists (order_file self id) (inr false)] rest m ml mw
                  ((TTask (length done), EvExists (order_file self id) (inr false)) :: tr) Hl)
        as (w' & log' & tr' & Hrun & Hl').
      exists (Work (length done) quiet :: replicate 4 (Work (length done) quiet)).
      exists w', "failed", log', tr'. split; [|done].
      cbn [run]. erewrite work_step; [|reflexivity|reflexivity].
      cbn [shared]. rewrite Hb. simpl settle. unfold fetch_order. rewrite Hn.
      exact Hrun.
Qed.

Lemma run_app sched1 sched2 s s' :
  run sched1 s = Some s' -> run (sched1 ++ sched2) s = run sched2 s'.
Proof.
  revert s. induction sched1 as [|c sched1 IH]; intros s; simpl.
  - by intros [= ->].
  - destruct (step c s); [apply IH|done].
Qed.

Lemma waiting_complete ids : forall w done ml mw tr,
  lock w = None -> (0 < mw)%nat ->
  Forall (fun f => is_collected f = true) done ->
  exists sched s,
    run sched (Pool w (done ++ waiting ids) None ml mw tr) = Some s /\
    completed s = true.
Proof.
  induction ids as [|id ids IH]; intros w done ml mw tr Hl Hmw Hd.
  - exists [], (Pool w (done ++ waiting []) None ml mw tr). split; [done|].
    apply completed_spec. simpl. by rewrite app_nil_r.
  - destruct (task_runs w done id (waiting ids) None ml mw tr Hl)
      as (sched1 & w' & r & log & tr' & Hrun1 & Hl').
    destruct (IH w' (done ++ [Done (Returned r) true log])
                (EvResult (length done) (Returned r) :: ml) mw
                ((TMain, EvResult (length done) (Returned r)) :: tr') Hl' Hmw)
      as (sched2 & s & Hrun2 & Hc).
    { apply Forall_app. split; [done|]. by repeat constructor. }
    exists (Dequeue :: sched1 ++ Collect (length done) :: sched2), s.
    split; [|done].
    cbn [run step futures max_workers]. change (waiting (id :: ids))
      with (Pending (task self id) :: waiting ids).
    assert (List.filter is_running (done ++ Pending (task self id) :: waiting ids) = [])
      as -> by apply (no_running done (id :: ids) Hd).
    simpl length. destruct (Nat.ltb_spec 0 mw) as [_|?]; [|lia].
    rewrite first_pending_middle by done. rewrite insert_middle.
    cbn [shared main main_log trace settle task process_single_order].
    rewrite (run_app _ _ _ _ Hrun1). cbn [run step main futures].
    rewrite list_lookup_middle by done. rewrite insert_middle.
    cbn [shared main_log max_workers trace].
    rewrite <- Hrun2. by rewrite <- app_assoc.
Qed.

End Progress.

(** For every fetcher, every file system and counters, every input and
    every positive number of workers, [fetch_all_orders] has a run that
    completes. *)
Lemma fetch_all_orders_can_complete self w rows workers :
  lock w = None -> (0 < workers)%Z ->
  exists sched s,
    fetch_all_orders_run self w (Some rows) workers sched = Some s /\
    completed s = true.
Proof.
  intros Hl Hw. unfold fetch_all_orders_run, fetch_all_orders.
  destruct (Z.leb_spec workers 0) as [?|_]; [lia|].
  rewrite submit_all_waiting.
  apply (waiting_complete self (read_order_ids rows) (reset_counters w) []);
    [done|lia|constructor].
Qed.

(** *** What one task adds to the tally *)

(** What the outcome of a task adds to counter [c] by the end of the
    run: one to the counter of the string it returned; one to
    [failed_fetches], through the [except] block, when it raised. *)
Definition counted (c : counter) (f : future) : Z :=
  match c with
  | Successful => returned_with "success" f
  | Failed => returned_with "failed" f + has_raised f
  | Skipped => returned_with "skipped" f
  end.

Lemma sumZ_delete {A : Type} (g : A -> Z) (l : list A) i x :
  l !! i = Some x -> sumZ g l = g x + sumZ g (delete i l).
Proof.
  revert i. induction l as [|a l IH]; intros [|i]; simpl; try done.
  - by intros [= ->].
  - intros H. rewrite (IH _ H). lia.
Qed.

(** The counters of a completed run, with the part of task [i] apart. *)
Lemma tally_apart self ids s i f c :
  inv self ids s -> completed s = true -> futures s !! i = Some f ->
  get_counter c (shared s) = counted c f + sumZ (counted c) (delete i (futures s)).
Proof.
  intros HI Hc Hf. rewrite <- (sumZ_delete _ _ _ _ Hf).
  destruct (tally_completed _ _ _ HI Hc) as (H1 & H2 & H3 & _).
  destruct c; cbn [get_counter]; [done| |done].
  rewrite H2. symmetry. exact (sumZ_plus (returned_with "failed") has_raised _).
Qed.

Ltac from_tally H c :=
  generalize (H c); simpl; repeat case_decide; try done; intros; lia.

(** ** The claims *)




(** C4. When the task of identifier [X] has received a status other than
    200, or status 200 with a body that does not parse, it has returned
    ["failed"]: after the request it incremented [failed_fetches] once
    under the lock and did nothing else, so it opened no file. The final
    [failed_fetches] is one more than the failures among the other tasks,
    and [X] counts in no other counter. The two cases have the same
    history up to the response received, and the same tally. When no
    other identifier of the batch names the same file there is no file
    at its path after the run. *)
Theorem C4_failed_fetch_writes_nothing
    self w rows workers sched s i X f sess url body resp :
  lock w = None ->
  fetch_all_orders_run self w (Some rows) workers sched = Some s ->
  completed s = true ->
  read_order_ids rows !! i = Some X ->
  futures s !! i = Some f ->
  In (EvPost sess url body (inr resp)) (fut_log f) ->
  status_code resp <> 200 \/ json_loads (text resp) = None ->
  exists n v,
    py_int X = Some n /\
    f = Done (Returned "failed") true (fut_log f) /\
    history f =
      [EvExists (order_file self X) (inr false);
       EvPost (_create_session self) (api_base_url self) (payload n) (inr resp);
       EvAcquire; EvGet Failed v; EvSet Failed (v + 1); EvRelease] /\
    failed_fetches (shared s) = 1 + sumZ (counted Failed) (delete i (futures s)) /\
    successful_fetches (shared s) = sumZ (counted Successful) (delete i (futures s)) /\
    skipped_fetches (shared s) = sumZ (counted Skipped) (delete i (futures s)) /\
    files w !! order_file self X = None /\
    (distinct_files self (read_order_ids rows) ->
     files (shared s) !! order_file self X = None).
Proof.
  intros Hl Hrun Hc Hi Hf Hin Hbad.
  destruct (run_invariants _ _ _ _ _ _ Hl Hrun) as [HI HFI].
  destruct (completed_lookup _ _ _ _ _ HI Hc Hi) as (f' & Hf' & Hok & Hcol).
  assert (f' = f) as -> by congruence.
  pose proof (fun c => tally_apart _ _ _ _ _ c HI Hc Hf) as Htally.
  destruct HFI as [_ Ha _ Ho].
  assert (forall n v,
            fut_log f = [EvRelease; EvSet Failed (v + 1); EvGet Failed v; EvAcquire;
                         EvPost (_create_session self) (api_base_url self) (payload n)
                                (inr resp);
                         EvExists (order_file self X) (inr false)] ->
            files w !! order_file self X = None /\
            (distinct_files self (read_order_ids rows) ->
             files (shared s) !! order_file self X = None)) as Hfiles.
  { intros n v Hlog.
    assert (files w !! order_file self X = None) as Hnone.
    { eapply (Ha _ _ _ (inr false)); [exact Hf| |done]. rewrite Hlog. simpl. auto 10. }
    split; [done|]. intros Hnd. rewrite (Ho Hnd _ _ _ Hi Hf), Hlog. done. }
  destruct (collected_cases _ _ _ Hok Hcol) as [(r & log & -> & Hlog)|(e & log & -> & Hlog)].
  - destruct Hlog as [c pre v Hpre]. simpl in Hin.
    destruct Hin as [Hin|[Hin|[Hin|[Hin|Hin]]]]; try discriminate Hin.
    destruct Hpre as [|?|n e ?|n resp' ? Hst|n resp' ? ? Hnone|n resp' data Hn H200 Hdata];
      in_log Hin; injection Hin as <- <- <- ->.
    + exists n, v. split; [done|]. split; [done|]. split; [done|].
      split; [from_tally Htally Failed|]. split; [from_tally Htally Successful|].
      split; [from_tally Htally Skipped|]. by apply (Hfiles n v).
    + exists n, v. split; [done|]. split; [done|]. split; [done|].
      split; [from_tally Htally Failed|]. split; [from_tally Htally Successful|].
      split; [from_tally Htally Skipped|]. by apply (Hfiles n v).
    + destruct Hbad; congruence.
  - destruct Hlog as [|n resp' data Hn H200 Hdata|n resp' data k Hn H200 Hdata];
      in_log Hin; injection Hin as <- <- <- ->; destruct Hbad; congruence.
Qed.



(** C7, as the code has it. [save_order] writes in place:
    [open(filename, 'w')] creates or empties the file, [json.dump] then
    writes into it, and the file is closed at the end of the [with]
    block; nothing is written to a temporary file and renamed. From the
    [open] to the end of the write the file is there and incomplete,
    and an existence check finds it. When no two identifiers of the
    batch name the same file, the file of an identifier is at every
    moment of the run what its own task has done to it so far: what it
    was before the run as long as the task has not opened it, incomplete
    from the [open] on, the prefix written when the write has raised, and
    the complete dump of [{"data": D}] once the task has returned
    ["success"]. *)
Theorem C7_file_follows_its_task self w rows workers sched s i X f :
  lock w = None ->
  fetch_all_orders_run self w (Some rows) workers sched = Some s ->
  distinct_files self (read_order_ids rows) ->
  read_order_ids rows !! i = Some X ->
  futures s !! i = Some f ->
  files (shared s) !! order_file self X
    = view (files w !! order_file self X) (fut_log f) /\
  ((forall q, ~ In (EvOpen q None) (fut_log f)) ->
     files (shared s) !! order_file self X = files w !! order_file self X) /\
  (forall rest, fut_log f = EvOpen (order_file self X) None :: rest ->
     files (shared s) !! order_file self X = Some Writing) /\
  (forall d k e rest, fut_log f = EvDump (order_file self X) d (Some (k, e)) :: rest ->
     files (shared s) !! order_file self X = Some (Text (String.substring 0 k d))) /\
  (forall c log, f = Done (Returned "success") c log ->
     exists D, files (shared s) !! order_file self X
               = Some (Text (json_dumps (PDict [("data", D)])))).
Proof.
  intros Hl Hrun Hnd Hi Hf.
  destruct (run_invariants _ _ _ _ _ _ Hl Hrun) as [HI HFI].
  pose proof (fi_own _ _ _ _ HFI Hnd _ _ _ Hi Hf) as Hown.
  destruct (Forall2_lookup_r _ _ _ _ _ (inv_futures _ _ _ HI) Hf) as (X' & Hi' & Hs & Hp).
  assert (X' = X) as -> by congruence.
  split; [done|]. split; [|split; [|split]].
  - intros Hno. rewrite Hown. clear Hown Hp.
    destruct Hs as [| | | | | | |c r pre Hpre|c r pre Hpre|c r pre v Hpre|c r pre v Hpre
                    |c r pre v Hpre];
      simpl; try done;
      try (destruct (Hno (order_file self X)); simpl; by auto 10);
      destruct Hpre; simpl; try done;
      destruct (Hno (order_file self X)); simpl; auto 10.
  - intros rest Hlog. by rewrite Hown, Hlog.
  - intros d k e rest Hlog. by rewrite Hown, Hlog.
  - intros c log ->. simpl in Hs, Hp. symmetry in Hp.
    destruct (shape_returned _ _ _ _ Hs Hp) as [c0 pre v Hpre].
    inversion Hpre; subst. eexists. rewrite Hown. done.
Qed.


(** C9. A call of [fetch_all_orders] sets the three counters to zero
    before any task is submitted, whatever they held; the tally of the
    completed run counts the outcomes of this run's tasks only. *)
Theorem C9_counters_reset_per_run self w rows workers sched s :
  lock w = None ->
  fetch_all_orders_run self w (Some rows) workers sched = Some s ->
  completed s = true ->
  (exists s0,
     fetch_all_orders self w (Some rows) workers = Submitted s0 /\
     run sched s0 = Some s /\
     successful_fetches (shared s0) = 0 /\
     failed_fetches (shared s0) = 0 /\
     skipped_fetches (shared s0) = 0 /\
     Forall (fun f => exists p, f = Pending p) (futures s0) /\
     trace s0 = []) /\
  successful_fetches (shared s) = sumZ (returned_with "success") (futures s) /\
  failed_fetches (shared s) =
    sumZ (returned_with "failed") (futures s) + sumZ has_raised (futures s) /\
  skipped_fetches (shared s) = sumZ (returned_with "skipped") (futures s).
Proof.
  intros Hl Hrun Hc.
  destruct (run_invariants _ _ _ _ _ _ Hl Hrun) as [HI _].
  destruct (tally_completed _ _ _ HI Hc) as (H1 & H2 & H3 & _).
  split; [|done].
  unfold fetch_all_orders_run, fetch_all_orders in *.
  destruct (workers <=? 0)%Z; [done|].
  eexists. split; [done|]. split; [done|]. simpl.
  repeat split; try done. apply submit_all_pending.
Qed.

(** C10. With a bearer token configured the session carries
    [Authorization: Bearer <token>] and, cookie configured or not, no
    [Cookie] header beyond what a fresh session has (none). A [Cookie]
    header is set exactly when the token is absent (or empty) and the
    cookie is configured. *)
Theorem C10_bearer_token_excludes_cookie self :
  header_get default_headers "Cookie" = None ->
  (forall tok, configured (auth_token self) = Some tok ->
     header_get (session_headers (_create_session self)) "Authorization"
       = Some ("Bearer " +:+ tok) /\
     header_get (session_headers (_create_session self)) "Cookie" = None) /\
  (forall c, header_get (session_headers (_create_session self)) "Cookie" = Some c <->
     configured (auth_token self) = None /\ configured (cookie self) = Some c).
Proof.
  intros Hd. unfold _create_session. cbv zeta. cbn [session_headers].
  assert (forall h name, lower name = "cookie" \/ lower name = "authorization" ->
            header_get (headers_update h common_headers) name = header_get h name) as Hc.
  { intros h name Hn. by apply header_get_update_other, common_headers_no_credentials. }
  assert (forall h v,
            header_get (headers_update h [("Authorization", v)]) "Cookie"
            = header_get h "Cookie") as Ha.
  { intros h v. apply header_get_update_other. repeat constructor. by vm_compute. }
  split.
  - intros tok ->. rewrite !Hc by (vm_compute; auto).
    split; [apply header_get_update_one|]. by rewrite Ha.
  - intros c. rewrite Hc by (vm_compute; auto).
    destruct (configured (auth_token self)) as [tok|].
    + rewrite Ha, Hd. split; [done|]. by intros [? _].
    + destruct (configured (cookie self)) as [c'|].
      * rewrite header_get_update_one. split; [by intros [= ->]|by intros [_ [= ->]]].
      * rewrite Hd. split; [done|]. by intros [_ ?].
Qed.

(** ** Further properties of the code *)

(** *** [fetch_order] *)


(** *** Requests *)

(** How many requests a log records. *)
Fixpoint posts (log : list event) : Z :=
  match log with
  | [] => 0
  | EvPost _ _ _ _ :: log' => 1 + posts log'
  | _ :: log' => posts log'
  end.

Lemma prelude_posts self id c r pre :
  prelude self id c r pre ->
  0 <= posts pre <= 1 /\
  (In (EvExists (order_file self id) (inr true)) pre -> posts pre = 0) /\
  forall sess url body a,
    In (EvPost sess url body a) pre ->
    exists n, py_int id = Some n /\ sess = _create_session self /\
              url = api_base_url self /\ body = payload n.
Proof.
  destruct 1; simpl; (split; [lia|]); (split; [try done; intros Hin; in_log Hin|]);
    intros sess url body a Hin; in_log Hin;
    injection Hin as <- <- <- <-; eauto.
Qed.

Lemma shape_posts self id log :
  shape self id log ->
  0 <= posts log <= 1 /\
  (In (EvExists (order_file self id) (inr true)) log -> posts log = 0) /\
  forall sess url body a,
    In (EvPost sess url body a) log ->
    exists n, py_int id = Some n /\ sess = _create_session self /\
              url = api_base_url self /\ body = payload n.
Proof.
  destruct 1 as [| | | | | | |c r pre Hp|c r pre Hp|c r pre v Hp|c r pre v Hp|c r pre v Hp];
    try destruct (prelude_posts _ _ _ _ _ Hp) as (Hb & Hz & Hin');
    simpl; (split; [lia|]).
  1-7: (split; [try done; intros Hin; in_log Hin|]);
       intros sess url body a Hin; in_log Hin;
       injection Hin as <- <- <- <-; eauto.
  - split; [done|]. exact Hin'.
  - split; [intros [?|?]; [done|auto]|]. intros ? ? ? ? [?|?]; [done|eauto].
  - split; [intros [?|[?|?]]; [done|done|auto]|].
    intros ? ? ? ? [?|[?|?]]; [done|done|eauto].
  - split; [intros [?|[?|[?|?]]]; [done|done|done|auto]|].
    intros ? ? ? ? [?|[?|[?|?]]]; [done|done|done|eauto].
  - split; [intros [?|[?|[?|[?|?]]]]; [done|done|done|done|auto]|].
    intros ? ? ? ? [?|[?|[?|[?|?]]]]; [done|done|done|done|eauto].
Qed.

(** X2. At every moment of a run, the task of an identifier has sent at
    most one request, and none if it found the identifier's file. Every
    request sent goes to [api_base_url] with the session of
    [_create_session] and carries [int(order_id)]; so a run never sends
    more requests than the batch has identifiers. *)
Theorem X2_at_most_one_request_per_identifier self w rows workers sched s :
  lock w = None ->
  fetch_all_orders_run self w (Some rows) workers sched = Some s ->
  sumZ (fun f => posts (fut_log f)) (futures s)
    <= Z.of_nat (length (read_order_ids rows)) /\
  forall i id f,
    read_order_ids rows !! i = Some id ->
    futures s !! i = Some f ->
    0 <= posts (fut_log f) <= 1 /\
    (In (EvExists (order_file self id) (inr true)) (fut_log f) -> posts (fut_log f) = 0) /\
    forall sess url body a,
      In (EvPost sess url body a) (fut_log f) ->
      exists n, py_int id = Some n /\ sess = _create_session self /\
                url = api_base_url self /\ body = payload n.
Proof.
  intros Hl Hrun.
  destruct (run_invariants _ _ _ _ _ _ Hl Hrun) as [HI _].
  pose proof (inv_futures _ _ _ HI) as HF.
  split.
  - rewrite (Forall2_length _ _ _ HF). apply sumZ_le_length.
    intros f [i Hf]%list_elem_of_lookup.
    destruct (Forall2_lookup_r _ _ _ _ _ HF Hf) as (id & _ & Hs & _).
    by apply (shape_posts _ _ _ Hs).
  - intros i id f Hi Hf.
    destruct (Forall2_lookup_r _ _ _ _ _ HF Hf) as (id' & Hi' & Hs & _).
    assert (id' = id) as -> by congruence.
    by apply shape_posts.
Qed.


(** *** The lock *)

(** X4. Mutual exclusion and no lost update, at every moment of a run
    and under every interleaving: at most one thread is between its
    acquisition of the lock and its release, the lock is held exactly
    then, a value a thread has read from a counter under the lock is
    still the counter's value, and each counter equals the number of
    times it has been written so far. *)
Theorem X4_lock_protects_counters self w rows workers sched s :
  lock w = None ->
  fetch_all_orders_run self w (Some rows) workers sched = Some s ->
  (forall t t', crit (log_of s t) = true -> crit (log_of s t') = true -> t = t') /\
  (forall t, lock (shared s) = Some t <-> crit (log_of s t) = true) /\
  (forall t c v rest,
     log_of s t = EvGet c v :: rest -> get_counter c (shared s) = v) /\
  (forall c,
     get_counter c (shared s)
     = sumZ (fun f => stores c (fut_log f)) (futures s) + stores c (main_log s)).
Proof.
  intros Hl Hrun.
  destruct (run_invariants _ _ _ _ _ _ Hl Hrun) as [HI _].
  pose proof (inv_locks _ _ _ HI) as HL.
  split; [intros t t'; by apply (held_twice _ _ _ _ HL)|].
  split; [apply HL|]. split; [apply HL|]. apply (inv_counters _ _ _ HI).
Qed.

(** *** The files a run touches *)

(** Only a task that has parsed its identifier and received a document
    reaches [save_order]. *)
Lemma shape_file_event self id ev log :
  shape self id (ev :: log) ->
  (exists q ok, ev = EvOpen q ok) \/ (exists q d fa, ev = EvDump q d fa) ->
  exists n, py_int id = Some n.
Proof.
  intros Hs Hev. inversion Hs as [| | | | | | |? ? ? Hp| | | |]; subst; eauto;
    try (destruct Hev as [(? & ? & ?)|(? & ? & ? & ?)]; discriminate).
  inversion Hp; subst; eauto;
    destruct Hev as [(? & ? & ?)|(? & ? & ? & ?)]; discriminate.
Qed.

(** Each path either holds what it held before the run, or is the file
    of an identifier of the batch that [int] accepts and that had no
    file. *)
Definition touched_ok (self : UrbanPiperOrderFetcher) (fs0 : gmap string content)
    (ids : list string) (s : pool) : Prop :=
  forall p,
    files (shared s) !! p = fs0 !! p \/
    exists id n, id ∈ ids /\ p = order_file self id /\
                 py_int id = Some n /\ fs0 !! p = None.

Lemma touched_ok_move self fs0 ids s s' :
  inv self ids s -> files_inv self fs0 ids s -> touched_ok self fs0 ids s ->
  moves s s' -> touched_ok self fs0 ids s'.
Proof.
  intros HI HFI HT Hmv p.
  destruct Hmv as [i q Hi|i o q log w' p' ev Hi Hx|i o log Hm Hi|q w' p' ev Hm Hx];
    cbn [shared]; try apply HT.
  - destruct (Forall2_lookup_r _ _ _ _ _ (inv_futures _ _ _ HI) Hi)
      as (id & Hid & Hs & Hp).
    simpl in Hs, Hp. subst q.
    destruct (task_step _ _ _ _ _ _ _ _ _ Hs Hx) as [Hs' He].
    rewrite (effect_files _ _ _ _ _ _ He).
    destruct ev as [| |q ok|q d fa| | | | |]; simpl; try apply HT.
    + destruct ok; [apply HT|]. simpl in He. destruct He as (_ & -> & Hin & _).
      destruct (decide (p = order_file self id)) as [->|Hne];
        [|rewrite lookup_insert_ne by done; apply HT].
      right. destruct (shape_file_event _ _ _ _ Hs') as [n Hn]; [left; eauto|].
      exists id, n. split; [by eapply list_elem_of_lookup_2|].
      split; [done|]. split; [done|]. by eapply (fi_absent _ _ _ _ HFI _ _ _ (inr false)).
    + simpl in He. destruct He as (_ & -> & Hin & _).
      destruct (decide (p = order_file self id)) as [->|Hne];
        [|rewrite lookup_insert_ne by done; apply HT].
      right. destruct (shape_file_event _ _ _ _ Hs') as [n Hn]; [right; eauto|].
      exists id, n. split; [by eapply list_elem_of_lookup_2|].
      split; [done|]. split; [done|]. by eapply (fi_absent _ _ _ _ HFI _ _ _ (inr false)).
  - pose proof (inv_main _ _ _ HI) as HM. rewrite Hm in HM.
    rewrite (main_step_files _ _ _ _ _ _ _ HM Hx). apply HT.
Qed.

Lemma touched_ok_reachable self fs0 ids s0 s :
  inv self ids s0 -> files_inv self fs0 ids s0 -> touched_ok self fs0 ids s0 ->
  reachable s0 s -> touched_ok self fs0 ids s.
Proof.
  intros H0 F0 T0. induction 1 as [|s s' Hr IH Hm]; [done|].
  eapply touched_ok_move; [| |exact IH|exact Hm].
  - by eapply inv_reachable.
  - by eapply files_inv_reachable.
Qed.

(** X5. What a run leaves alone. At every moment of a run, a path holds
    what it held before the run unless it is the file of an identifier
    of the batch that [int] accepts and that had no file; in particular
    no existing file is ever changed or removed, and nothing outside the
    batch's own files is written. *)
Theorem X5_run_writes_only_missing_records self w rows workers sched s p :
  lock w = None ->
  fetch_all_orders_run self w (Some rows) workers sched = Some s ->
  (files (shared s) !! p = files w !! p \/
   exists id n, id ∈ read_order_ids rows /\ p = order_file self id /\
                py_int id = Some n /\ files w !! p = None) /\
  (is_Some (files w !! p) -> files (shared s) !! p = files w !! p).
Proof.
  intros Hl Hrun.
  assert (touched_ok self (files w) (read_order_ids rows) s) as HT.
  { unfold fetch_all_orders_run, fetch_all_orders in Hrun.
    destruct (workers <=? 0)%Z; [done|]. apply run_reachable in Hrun.
    eapply touched_ok_reachable; [| | |exact Hrun].
    - by apply inv_submitted.
    - apply (files_inv_submitted self w).
    - intros q. by left. }
  split; [apply HT|].
  intros [c Hc]. destruct (HT p) as [?|(id & n & _ & _ & _ & Hnone)]; [done|congruence].
Qed.


Lemma step_empty c w ml mw tr : step c (Pool w [] None ml mw tr) = None.
Proof. destruct c as [|i o|i|]; simpl; try done. by destruct (_ <? _)%nat. Qed.

(** X7. An input without identifiers (no rows, or only rows that are
    blank after [strip]) submits nothing: the only run is the empty one,
    it is complete, all three counters are zero and no file is touched. *)
Theorem X7_blank_input_runs_nothing self w rows workers sched s :
  read_order_ids rows = [] ->
  fetch_all_orders_run self w (Some rows) workers sched = Some s ->
  sched = [] /\
  completed s = true /\
  successful_fetches (shared s) = 0 /\
  failed_fetches (shared s) = 0 /\
  skipped_fetches (shared s) = 0 /\
  files (shared s) = files w /\
  trace s = [].
Proof.
  intros Hrows. unfold fetch_all_orders_run, fetch_all_orders. rewrite Hrows.
  destruct (workers <=? 0)%Z; [done|]. simpl submit_all.
  destruct sched as [|c sched]; simpl.
  - intros [= <-]. done.
  - by rewrite step_empty.
Qed.

(** *** The headers of the session *)

Lemma header_get_update_in h kvs k v name :
  NoDup ((fun kv => lower kv.1) <$> kvs) ->
  In (k, v) kvs ->
  lower name = lower k ->
  header_get (headers_update h kvs) name = Some v.
Proof.
  unfold headers_update. revert h.
  induction kvs as [|kv kvs IH]; intros h Hnd Hin Hname; [done|].
  rewrite fmap_cons in Hnd. apply NoDup_cons in Hnd as [Hfresh Hnd].
  cbn [foldl]. destruct Hin as [->|Hin]; [|by apply IH].
  fold (headers_update (header_set h (k, v)) kvs).
  rewrite header_get_update_other.
  - unfold header_get, header_set. cbn [fst]. rewrite Hname. by rewrite lookup_insert_eq.
  - apply Forall_forall. intros kv Hkv Heq. apply Hfresh. cbn [fst].
    rewrite <- Hname, <- Heq. apply list_elem_of_fmap. by exists kv.
Qed.

Lemma common_headers_distinct : NoDup ((fun kv => lower kv.1) <$> common_headers).
Proof. apply (bool_decide_unpack _). vm_compute. exact I. Qed.

(** X8. The fourteen browser headers are always on the session, whatever
    the credentials and whatever a fresh session already carries, and
    they replace a default header of the same name in any spelling
    (header names are case insensitive): a session sends the browser's
    [user-agent] and [accept], not those of [requests]. *)
Theorem X8_common_headers_always_sent self k v name :
  In (k, v) common_headers ->
  lower name = lower k ->
  header_get (session_headers (_create_session self)) name = Some v.
Proof.
  intros Hin Hname. unfold _create_session. cbv zeta. cbn [session_headers].
  by apply (header_get_update_in _ _ k v name common_headers_distinct).
Qed.

(** X9. The [Authorization] header is set exactly when a non-empty token
    is configured, and is then [Bearer <token>]; with neither token nor
    cookie the session is still built, with no credential header at all. *)
Theorem X9_authorization_only_from_token self :
  header_get default_headers "Authorization" = None ->
  header_get default_headers "Cookie" = None ->
  (forall v,
     header_get (session_headers (_create_session self)) "Authorization" = Some v <->
     exists tok, configured (auth_token self) = Some tok /\ v = "Bearer " +:+ tok) /\
  (configured (auth_token self) = None -> configured (cookie self) = None ->
   header_get (session_headers (_create_session self)) "Authorization" = None /\
   header_get (session_headers (_create_session self)) "Cookie" = None).
Proof.
  intros Hda Hdc. unfold _create_session. cbv zeta. cbn [session_headers].
  assert (forall h name, lower name = "cookie" \/ lower name = "authorization" ->
            header_get (headers_update h common_headers) name = header_get h name) as Hc.
  { intros h name Hn. by apply header_get_update_other, common_headers_no_credentials. }
  assert (forall h v,
            header_get (headers_update h [("Cookie", v)]) "Authorization"
            = header_get h "Authorization") as Hk.
  { intros h v. apply header_get_update_other. repeat constructor. by vm_compute. }
  split.
  - intros v. rewrite Hc by (vm_compute; auto).
    destruct (configured (auth_token self)) as [tok|].
    + rewrite header_get_update_one. split.
      * intros [= <-]. by exists tok.
      * by intros (tok' & [= <-] & ->).
    + destruct (configured (cookie self)) as [c|]; rewrite ?Hk, Hda;
        (split; [done|by intros (? & ? & _)]).
  - intros -> ->. by rewrite !Hc by (vm_compute; auto).
Qed.

(** *** The worker pool *)

Definition running (fs : list future) : nat := length (List.filter is_running fs).

Lemma running_insert fs i x y :
  fs !! i = Some x ->
  (running (<[i := y]> fs) + (if is_running x then 1 else 0)
   = running fs + (if is_running y then 1 else 0))%nat.
Proof.
  unfold running. revert i. induction fs as [|a fs IH]; intros [|i]; simpl; try done.
  - intros [= ->]. destruct (is_running x), (is_running y); simpl; lia.
  - intros H. specialize (IH _ H). destruct (is_running a); simpl; lia.
Qed.

Lemma settle_running_le p log : ((if is_running (settle p log) then 1 else 0) <= 1)%nat.
Proof. destruct (is_running _); lia. Qed.

Lemma step_workers c s s' :
  step c s = Some s' ->
  max_workers s' = max_workers s /\
  ((running (futures s) <= max_workers s)%nat ->
   (running (futures s') <= max_workers s)%nat).
Proof.
  destruct c as [|i o|i|]; simpl.
  - destruct (Nat.ltb_spec (length (List.filter is_running (futures s))) (max_workers s))
      as [Hlt|]; [|done].
    destruct (first_pending (futures s)) as [[i p]|] eqn:Hp; [|done].
    intros [= <-]. split; [done|]. intros _. simpl.
    pose proof (running_insert _ _ _ (settle p []) (first_pending_lookup _ _ _ Hp)) as H.
    pose proof (settle_running_le p []). simpl in H. unfold running in *. lia.
  - destruct (futures s !! i) as [[p|p log|]|] eqn:Hf; try done.
    destruct (exec1 _ _ _ _) as [[[w' p'] ev]|]; [|done].
    intros [= <-]. split; [done|]. simpl.
    pose proof (running_insert _ _ _ (settle p' (ev :: log)) Hf) as H.
    pose proof (settle_running_le p' (ev :: log)). simpl in H. lia.
  - destruct (main s); [done|].
    destruct (futures s !! i) as [[p|p log|o [] log]|] eqn:Hf; try done.
    intros [= <-]. split; [done|]. simpl.
    pose proof (running_insert _ _ _ (Done o true log) Hf) as H. simpl in H. lia.
  - destruct (main s) as [p|]; [|done].
    destruct (exec1 _ _ _ _) as [[[w' p'] ev]|]; [|done].
    by intros [= <-].
Qed.

Lemma run_workers sched s s' :
  run sched s = Some s' ->
  (running (futures s) <= max_workers s)%nat ->
  max_workers s' = max_workers s /\ (running (futures s') <= max_workers s')%nat.
Proof.
  revert s. induction sched as [|c sched IH]; intros s; simpl.
  - by intros [= <-].
  - destruct (step c s) as [s1|] eqn:Hc; [|done]. intros Hrun Hle.
    destruct (step_workers _ _ _ Hc) as [Hmw Hle1].
    destruct (IH _ Hrun) as [Hmw' Hle']; [rewrite Hmw; by apply Hle1|].
    split; congruence.
Qed.

Lemma running_submit_all self ids : running (submit_all self ids) = 0%nat.
Proof.
  rewrite submit_all_waiting. unfold running, waiting.
  induction ids as [|id ids IH]; simpl; done.
Qed.

(** The worker limit holds at every moment of a run: never more
    than [max_workers] tasks are between their start and their end. *)
Lemma never_more_than_max_workers_in_flight self w rows workers sched s :
  fetch_all_orders_run self w (Some rows) workers sched = Some s ->
  (0 < workers)%Z /\
  max_workers s = Z.to_nat workers /\
  (length (List.filter is_running (futures s)) <= Z.to_nat workers)%nat.
Proof.
  unfold fetch_all_orders_run, fetch_all_orders.
  destruct (Z.leb_spec workers 0) as [|Hpos]; [done|]. intros Hrun.
  destruct (run_workers _ _ _ Hrun) as [Hmw Hle].
  - simpl. rewrite running_submit_all. lia.
  - simpl in Hmw. split; [done|]. split; [done|]. by rewrite <- Hmw.
Qed.

(** A future some worker has taken. *)
Definition has_started (f : future) : bool :=
  match f with Pending _ => false | _ => true end.

(** Whoever has started has only started tasks before it. *)
Definition in_order (fs : list future) : Prop :=
  forall i j fi fj,
    (i < j)%nat -> fs !! i = Some fi -> fs !! j = Some fj ->
    has_started fj = true -> has_started fi = true.

Lemma first_pending_before fs i p :
  first_pending fs = Some (i, p) ->
  forall j g, (j < i)%nat -> fs !! j = Some g -> has_started g = true.
Proof.
  revert i. induction fs as [|f fs IH]; intros i; simpl; [done|].
  destruct f as [q|q log|o c log].
  - intros [= <- <-] j g Hj. lia.
  - destruct (first_pending fs) as [[k q']|] eqn:Hfp; [|done].
    intros [= <- <-] [|j] g Hj; simpl; [by intros [= <-]|].
    apply (IH k eq_refl). lia.
  - destruct (first_pending fs) as [[k q']|] eqn:Hfp; [|done].
    intros [= <- <-] [|j] g Hj; simpl; [by intros [= <-]|].
    apply (IH k eq_refl). lia.
Qed.

Lemma settle_started p log : has_started (settle p log) = true.
Proof. by destruct p. Qed.

Lemma in_order_insert_started fs i x y :
  in_order fs -> fs !! i = Some x -> has_started x = true -> has_started y = true ->
  in_order (<[i := y]> fs).
Proof.
  intros Hord Hi Hx Hy a b fa fb Hab Ha Hb Hsb.
  apply lookup_insert_cases in Ha as [[-> ->]|[Hna Ha]]; [done|].
  apply lookup_insert_cases in Hb as [[-> ->]|[Hnb Hb]].
  - by apply (Hord a i fa x).
  - by apply (Hord a b fa fb).
Qed.

Lemma step_in_order c s s' :
  step c s = Some s' -> in_order (futures s) -> in_order (futures s').
Proof.
  destruct c as [|i o|i|]; simpl.
  - destruct (_ <? _)%nat; [|done].
    destruct (first_pending (futures s)) as [[i p]|] eqn:Hp; [|done].
    intros [= <-] Hord. simpl. intros a b fa fb Hab Ha Hb Hsb.
    pose proof (first_pending_lookup _ _ _ Hp) as Hi.
    apply lookup_insert_cases in Ha as [[-> ->]|[Hna Ha]]; [apply settle_started|].
    apply lookup_insert_cases in Hb as [[-> ->]|[Hnb Hb]].
    + by apply (first_pending_before _ _ _ Hp a fa).
    + by apply (Hord a b fa fb).
  - destruct (futures s !! i) as [[p|p log|]|] eqn:Hf; try done.
    destruct (exec1 _ _ _ _) as [[[w' p'] ev]|]; [|done].
    intros [= <-] Hord. simpl.
    by eapply in_order_insert_started; [done..|apply settle_started].
  - destruct (main s); [done|].
    destruct (futures s !! i) as [[p|p log|o [] log]|] eqn:Hf; try done.
    intros [= <-] Hord. simpl. by eapply in_order_insert_started.
  - destruct (main s) as [p|]; [|done].
    destruct (exec1 _ _ _ _) as [[[w' p'] ev]|]; [|done].
    by intros [= <-].
Qed.

Lemma run_in_order sched s s' :
  run sched s = Some s' -> in_order (futures s) -> in_order (futures s').
Proof.
  revert s. induction sched as [|c sched IH]; intros s; simpl.
  - by intros [= <-].
  - destruct (step c s) as [s1|] eqn:Hc; [|done]. intros Hrun Hord.
    apply (IH _ Hrun). by eapply step_in_order.
Qed.

(** Tasks are taken up in the order of the input: at every moment
    of a run, a task has been started only if every task before it in
    the batch has been started. *)
Lemma tasks_start_in_input_order self w rows workers sched s i j fi fj :
  fetch_all_orders_run self w (Some rows) workers sched = Some s ->
  (i < j)%nat ->
  futures s !! i = Some fi ->
  futures s !! j = Some fj ->
  has_started fj = true ->
  has_started fi = true.
Proof.
  unfold fetch_all_orders_run, fetch_all_orders.
  destruct (workers <=? 0)%Z; [done|]. intros Hrun.
  apply (run_in_order _ _ _ Hrun). simpl.
  intros a b fa fb _ _ Hb Hsb.
  destruct (proj1 (Forall_lookup _ _) (submit_all_pending self (read_order_ids rows))
              _ _ Hb) as [p ->]. done.
Qed.

(** *** No deadlock, no endless run *)

Definition is_leaf {A : Type} (p : prog A) : bool :=
  match p with Ret _ | Raise _ => true | _ => false end.

(** Only a thread waiting for a held lock cannot move. *)
Lemma exec1_enabled {A : Type} t o w (p : prog A) :
  is_leaf p = false ->
  lock w = None \/ (forall k, p <> Acquire k) ->
  exists r, exec1 t o w p = Some r.
Proof.
  intros Hleaf Hl. destruct p; simpl in *; try done; eauto.
  - destruct (open_fails o); eauto.
  - destruct Hl as [->|Hl]; [eauto|]. by destruct (Hl p).
Qed.

(** A running future is not at its end. *)
Definition live (s : pool) : Prop :=
  forall i p log, futures s !! i = Some (Running p log) -> is_leaf p = false.

Lemma settle_running p log p' log' :
  settle p log = Running p' log' -> is_leaf p' = false.
Proof. destruct p; simpl; intros [= <- _]; done. Qed.

Lemma live_move s s' : live s -> moves s s' -> live s'.
Proof.
  intros HL Hmv.
  destruct Hmv as [i q Hi|i o q log w' p' ev Hi Hx|i o log Hm Hi|q w' p' ev Hm Hx];
    intros j p l; cbn [futures]; try apply HL.
  - intros [[-> H]|[_ H]]%lookup_insert_cases; [|by eapply HL].
    symmetry in H. by eapply settle_running.
  - intros [[-> H]|[_ H]]%lookup_insert_cases; [|by eapply HL].
    symmetry in H. by eapply settle_running.
  - intros [[-> H]|[_ H]]%lookup_insert_cases; [done|by eapply HL].
Qed.

Lemma live_reachable s0 s : live s0 -> reachable s0 s -> live s.
Proof. intros H0. induction 1; [done|]. by eapply live_move. Qed.

(** Inside the critical section a task is at the read, the write or the
    release: it can always move. *)
Lemma crit_task_moves self id log t o w :
  shape self id log -> crit log = true ->
  exists r, exec1 t o w (replay (task self id) log) = Some r.
Proof.
  intros Hs Hc.
  destruct Hs as [| | | | | | |c r pre Hp|c r pre Hp|c r pre v Hp|c r pre v Hp|c r pre v Hp];
    try done.
  - by destruct Hp.
  - simpl. rewrite (replay_prelude _ _ _ _ _ Hp). simpl. eauto.
  - simpl. rewrite (replay_prelude _ _ _ _ _ Hp). simpl. eauto.
  - simpl. rewrite (replay_prelude _ _ _ _ _ Hp). simpl. eauto.
Qed.

Lemma main_moves log p o w :
  main_shape log (Some p) ->
  lock w = None \/ crit log = true ->
  exists r, exec1 TMain o w p = Some r.
Proof.
  intros Hs Hl. inversion Hs; subst; simpl; eauto.
  destruct Hl as [->|Hc]; [eauto|done].
Qed.

Lemma main_crit_busy log m : main_shape log m -> crit log = true -> is_Some m.
Proof. inversion 1; simpl; try done; eauto. Qed.

(** What a list of futures offers the scheduler. *)
Lemma futures_offer fs :
  (exists i p log, fs !! i = Some (Running p log)) \/
  (List.filter is_running fs = [] /\
   ((exists i o log, fs !! i = Some (Done o false log)) \/
    (exists i p, first_pending fs = Some (i, p)) \/
    forallb is_collected fs = true)).
Proof.
  induction fs as [|f fs IH]; [right; split; [done|]; auto|].
  destruct f as [p|p log|o [] log].
  - destruct IH as [(i & q & log & H)|[Hnr _]]; [left; by exists (S i), q, log|].
    right. split; [done|]. right. left. by exists 0%nat, p.
  - left. by exists 0%nat, p, log.
  - destruct IH as [(i & q & l & H)|[Hnr H]]; [left; by exists (S i), q, l|].
    right. split; [done|].
    destruct H as [(i & o' & l & H)|[(i & q & H)|H]].
    + left. by exists (S i), o', l.
    + right. left. exists (S i), q. simpl. by rewrite H.
    + right. right. done.
  - destruct IH as [(i & q & l & H)|[Hnr _]]; [left; by exists (S i), q, l|].
    right. split; [done|]. left. by exists 0%nat, o, log.
Qed.

Lemma progress self ids s :
  inv self ids s -> live s -> (0 < max_workers s)%nat ->
  completed s = false ->
  exists c s', step c s = Some s'.
Proof.
  intros HI HLv Hmw Hnc.
  destruct (inv_locks _ _ _ HI) as [Hlk _].
  pose proof (inv_main _ _ _ HI) as HM.
  destruct (lock (shared s)) as [t|] eqn:Hl.
  - (* the holder of the lock moves *)
    pose proof (proj1 (Hlk t) eq_refl) as Hc. destruct t as [|i]; simpl in Hc.
    + destruct (main_crit_busy _ _ HM Hc) as [p Hp]. rewrite Hp in HM.
      destruct (main_moves _ _ quiet (shared s) HM (or_intror Hc)) as [[[w' p'] ev] Hx].
      exists MainStep. simpl. rewrite Hp, Hx. eauto.
    + destruct (futures s !! i) as [f|] eqn:Hf; [|done]. simpl in Hc.
      destruct (Forall2_lookup_r _ _ _ _ _ (inv_futures _ _ _ HI) Hf)
        as (id & _ & Hs & Hp).
      destruct (crit_task_moves _ _ _ (TTask i) quiet (shared s) Hs Hc)
        as [[[w' p'] ev] Hx].
      rewrite <- Hp in Hx.
      destruct f as [q|q log|[r|e] cl log]; simpl in *; try done.
      exists (Work i quiet). simpl. rewrite Hf, Hx. eauto.
  - (* the lock is free *)
    destruct (main s) as [p|] eqn:Hmain.
    { destruct (main_moves _ _ quiet (shared s) HM (or_introl Hl)) as [[[w' p'] ev] Hx].
      exists MainStep. simpl. rewrite Hmain, Hx. eauto. }
    destruct (futures_offer (futures s))
      as [(i & p & log & Hf)|[Hnr [(i & o & log & Hf)|[(i & p & Hf)|Hall]]]].
    + destruct (exec1_enabled (TTask i) quiet (shared s) p (HLv _ _ _ Hf) (or_introl Hl))
        as [[[w' p'] ev] Hx].
      exists (Work i quiet). simpl. rewrite Hf, Hx. eauto.
    + exists (Collect i). simpl. rewrite Hmain, Hf. eauto.
    + exists Dequeue. simpl. rewrite Hnr, Hf. simpl.
      destruct (Nat.ltb_spec 0 (max_workers s)); [eauto|lia].
    + assert (completed s = true) as Hc; [|congruence].
      unfold completed. rewrite Hall, Hmain. by rewrite bool_decide_eq_true_2.
Qed.

Lemma live_submitted self w ids mw :
  live (Pool w (submit_all self ids) None [] mw []).
Proof.
  intros i p log Hf. simpl in Hf.
  by destruct (proj1 (Forall_lookup _ _) (submit_all_pending self ids) _ _ Hf) as [q ?].
Qed.

(** X10. No deadlock: at every moment of a run that is not yet complete
    some thread can move, under every interleaving that led there. A
    thread only ever waits for the lock, and the holder of the lock is
    never waiting. *)
Theorem X10_run_never_stuck self w rows workers sched s :
  lock w = None ->
  fetch_all_orders_run self w (Some rows) workers sched = Some s ->
  completed s = false ->
  exists c s', fetch_all_orders_run self w (Some rows) workers (sched ++ [c]) = Some s'.
Proof.
  intros Hl Hrun Hnc.
  destruct (run_invariants _ _ _ _ _ _ Hl Hrun) as [HI _].
  unfold fetch_all_orders_run, fetch_all_orders in *.
  destruct (Z.leb_spec workers 0) as [|Hpos]; [done|].
  destruct (run_workers _ _ _ Hrun) as [Hmw _];
    [simpl; rewrite running_submit_all; lia|].
  destruct (progress self (read_order_ids rows) s HI) as (c & s' & Hstep); [| |done|].
  - eapply live_reachable; [apply live_submitted|by eapply run_reachable].
  - rewrite Hmw. simpl. lia.
  - exists c, s'. rewrite (run_app _ [c] _ _ Hrun). simpl. by rewrite Hstep.
Qed.

(** What a future can still cost the scheduler: one move to start it, at
    most eight actions, one move to collect it and four for the [except]
    block when it raised. *)
Definition moves_left (f : future) : Z :=
  match f with
  | Pending _ => 14
  | Running _ log => 13 - Z.of_nat (length log)
  | Done (Returned _) false _ => 1
  | Done (Raised _) false _ => 5
  | Done _ true _ => 0
  end.

Definition handler_left (m : option (prog unit)) : Z :=
  match m with
  | Some (Acquire _) => 4
  | Some (GetAttr _ _) => 3
  | Some (SetAttr _ _ _) => 2
  | Some (Release _) => 1
  | _ => 0
  end.

Definition budget (s : pool) : Z :=
  sumZ moves_left (futures s) + handler_left (main s).

Lemma prelude_length self id c r pre : prelude self id c r pre -> (length pre <= 4)%nat.
Proof. destruct 1; simpl; lia. Qed.

Lemma shape_length self id log : shape self id log -> (length log <= 8)%nat.
Proof.
  destruct 1 as [| | | | | | |c r pre Hp|c r pre Hp|c r pre v Hp|c r pre v Hp|c r pre v Hp];
    try pose proof (prelude_length _ _ _ _ _ Hp); simpl; lia.
Qed.

Lemma budget_move self ids s s' :
  inv self ids s -> moves s s' -> budget s' + 1 <= budget s.
Proof.
  intros HI Hmv. unfold budget.
  destruct Hmv as [i q Hi|i o q log w' p' ev Hi Hx|i o log Hm Hi|q w' p' ev Hm Hx];
    cbn [futures main].
  - rewrite (sumZ_insert _ _ _ _ _ Hi). destruct q; simpl; lia.
  - rewrite (sumZ_insert _ _ _ _ _ Hi).
    destruct (Forall2_lookup_r _ _ _ _ _ (inv_futures _ _ _ HI) Hi)
      as (id & _ & Hs & Hp).
    simpl in Hs, Hp. subst q.
    destruct (task_step _ _ _ _ _ _ _ _ _ Hs Hx) as [Hs' _].
    pose proof (shape_length _ _ _ Hs') as Hlen. simpl in Hlen.
    destruct p'; simpl; lia.
  - rewrite (sumZ_insert _ _ _ _ _ Hi). rewrite Hm. destruct o; simpl; lia.
  - pose proof (inv_main _ _ _ HI) as HM. rewrite Hm in *.
    inversion HM; subst; simpl in Hx.
    + destruct (lock (shared s)); [done|]. injection Hx as <- <- <-. simpl. lia.
    + injection Hx as <- <- <-. simpl. lia.
    + injection Hx as <- <- <-. simpl. lia.
    + injection Hx as <- <- <-. simpl. lia.
Qed.

Lemma budget_nonneg self ids s : inv self ids s -> 0 <= budget s.
Proof.
  intros HI. unfold budget.
  assert (0 <= sumZ moves_left (futures s)).
  { pose proof (inv_futures _ _ _ HI) as HF. clear HI.
    induction HF as [|id f ids fs [Hs _] _ IH]; simpl; [lia|].
    pose proof (shape_length _ _ _ Hs).
    destruct f as [|q log|[|] [] log]; simpl in *; lia. }
  destruct (main s) as [[]|]; simpl; lia.
Qed.

Lemma run_budget self ids sched s s' :
  inv self ids s -> run sched s = Some s' ->
  Z.of_nat (length sched) + budget s' <= budget s.
Proof.
  revert s. induction sched as [|c sched IH]; intros s HI; simpl run.
  - intros [= <-]. simpl. lia.
  - destruct (step c s) as [s1|] eqn:Hc; [|done]. intros Hrun.
    apply step_moves in Hc.
    pose proof (budget_move _ _ _ _ HI Hc).
    pose proof (IH s1 (inv_move _ _ _ _ HI Hc) Hrun).
    simpl length. lia.
Qed.

Lemma budget_submitted self w ids mw :
  budget (Pool w (submit_all self ids) None [] mw []) = 14 * Z.of_nat (length ids).
Proof.
  unfold budget. simpl. rewrite submit_all_waiting.
  rewrite (sumZ_const moves_left _ 14).
  - unfold waiting. rewrite length_fmap. lia.
  - intros f [id [-> _]]%list_elem_of_fmap. done.
Qed.

(** X11. No run goes on for ever: whatever the interleaving and whatever
    network and disk answer, a run of a batch of [N] identifiers has at
    most [14 * N] moves (per identifier: its start, at most eight actions
    of the task, its collection, four actions of the [except] block). *)
Theorem X11_runs_are_bounded self w rows workers sched s :
  lock w = None ->
  fetch_all_orders_run self w (Some rows) workers sched = Some s ->
  Z.of_nat (length sched) <= 14 * Z.of_nat (length (read_order_ids rows)).
Proof.
  intros Hl Hrun.
  destruct (run_invariants _ _ _ _ _ _ Hl Hrun) as [HI _].
  unfold fetch_all_orders_run, fetch_all_orders in Hrun.
  destruct (workers <=? 0)%Z; [done|].
  pose proof (run_budget self (read_order_ids rows) _ _ _
                (inv_submitted self w _ (Z.to_nat workers) Hl) Hrun) as Hb.
  rewrite budget_submitted in Hb.
  pose proof (budget_nonneg _ _ _ HI). lia.
Qed.

(** ** [test_single_order.py]

    The script fetches one fixed order with [fetch_order] and saves it
    with [save_order]; it calls neither [process_single_order] nor
    [fetch_all_orders]. The credentials come from the environment. *)







(** ** The tally does not depend on the schedule

    Over a network that answers each identifier in one way, when no
    call of [exists], [open] or [json.dump] raises and no two
    identifiers name the same file, what happens to an identifier is
    decided by the files before the run and the network's answer alone. *)
Section Calm.

Variable self : UrbanPiperOrderFetcher.
Variable answer : string -> exn + response.












End Calm.


(** ** Every run can be finished *)

Lemma finish self ids (n : nat) : forall s,
  inv self ids s -> live s -> (0 < max_workers s)%nat ->
  budget s <= Z.of_nat n ->
  exists rest s', run rest s = Some s' /\ completed s' = true.
Proof.
  induction n as [|n IH]; intros s HI HLv Hmw Hb;
    destruct (completed s) eqn:Hc;
    try (by exists [], s).
  - destruct (progress self ids s HI HLv Hmw Hc) as (c & s1 & Hstep).
    pose proof (step_moves _ _ _ Hstep) as Hmv.
    pose proof (budget_move _ _ _ _ HI Hmv).
    pose proof (budget_nonneg _ _ _ (inv_move _ _ _ _ HI Hmv)). lia.
  - destruct (progress self ids s HI HLv Hmw Hc) as (c & s1 & Hstep).
    pose proof (step_moves _ _ _ Hstep) as Hmv.
    pose proof (budget_move _ _ _ _ HI Hmv).
    destruct (IH s1) as (rest & s' & Hrun & Hdone).
    + by eapply inv_move.
    + by eapply live_move.
    + by rewrite (proj1 (step_workers _ _ _ Hstep)).
    + lia.
    + exists (c :: rest), s'. simpl. by rewrite Hstep.
Qed.

(** X14. Whatever has happened so far, the batch can still be brought to
    its end: every run, complete or not, under every interleaving and
    every answer of network and disk so far, has a continuation that is
    a complete run. No failure of a task, and no order of the threads,
    leaves the pool unable to finish. *)
Theorem X14_every_run_can_be_finished self w rows workers sched s :
  lock w = None ->
  fetch_all_orders_run self w (Some rows) workers sched = Some s ->
  exists rest s',
    fetch_all_orders_run self w (Some rows) workers (sched ++ rest)%list = Some s' /\
    completed s' = true.
Proof.
  intros Hl Hrun.
  destruct (run_invariants _ _ _ _ _ _ Hl Hrun) as [HI _].
  unfold fetch_all_orders_run, fetch_all_orders in *.
  destruct (Z.leb_spec workers 0) as [|Hpos]; [done|].
  destruct (run_workers _ _ _ Hrun) as [Hmw _];
    [simpl; rewrite running_submit_all; lia|].
  destruct (finish self (read_order_ids rows) (Z.to_nat (budget s)) s HI)
    as (rest & s' & Hrest & Hdone).
  - eapply live_reachable; [apply live_submitted|by eapply run_reachable].
  - rewrite Hmw. simpl. lia.
  - pose proof (budget_nonneg _ _ _ HI). lia.
  - exists rest, s'. by rewrite (run_app _ rest _ _ Hrun).
Qed.

End Fetcher.

(** * Running the model

    Concrete stand-ins for the library functions, to execute the model on
    concrete batches. *)

(** ** [int] and [str.strip] on ASCII text *)

Definition digit_of (c : ascii) : option Z :=
  let n := Z.of_N (Ascii.N_of_ascii c) in
  if ((48 <=? n) && (n <=? 57))%Z then Some (n - 48) else None.

Fixpoint digits (s : string) (acc : Z) : option Z :=
  match s with
  | EmptyString => Some acc
  | String c s' =>
      match digit_of c with
      | Some d => digits s' (10 * acc + d)
      | None => None
      end
  end.

(** Decimal digits with an optional sign; anything else is rejected. *)
Definition ascii_int (s : string) : option Z :=
  match s with
  | EmptyString => None
  | String c s' =>
      if Ascii.eqb c "-" then
        match s' with EmptyString => None | _ => Z.opp <$> digits s' 0 end
      else if Ascii.eqb c "+" then
        match s' with EmptyString => None | _ => digits s' 0 end
      else digits s 0
  end.

Definition is_space (c : ascii) : bool :=
  let n := Ascii.N_of_ascii c in
  (((9 <=? n) && (n <=? 13)) || ((28 <=? n) && (n <=? 32)))%N.

Fixpoint lstrip (s : string) : string :=
  match s with
  | EmptyString => EmptyString
  | String c s' => if is_space c then lstrip s' else s
  end.

Definition reverse_string (s : string) : string :=
  string_of_list_ascii (List.rev (list_ascii_of_string s)).

Definition ascii_strip (s : string) : string :=
  reverse_string (lstrip (reverse_string (lstrip s))).

(** ** A serialisation that reads back what it wrote

    Values are numbered through stdpp's countable trees and the number is
    written in binary. *)
Definition leaf : Type := bool + (Z + (Z + string)).

Fixpoint to_tree (d : pyval) : gen_tree leaf :=
  match d with
  | PNone => GenNode 0 []
  | PBool b => GenLeaf (inl b)
  | PInt n => GenLeaf (inr (inl n))
  | PFloat bits => GenLeaf (inr (inr (inl bits)))
  | PStr s => GenLeaf (inr (inr (inr s)))
  | PList l => GenNode 1 (List.map to_tree l)
  | PDict items =>
      GenNode 2 (List.map (fun kv => let '(k, v) := kv in
                             GenNode 3 [GenLeaf (inr (inr (inr k))); to_tree v])
                          items)
  end.

Fixpoint from_tree (t : gen_tree leaf) : pyval :=
  match t with
  | GenLeaf (inl b) => PBool b
  | GenLeaf (inr (inl n)) => PInt n
  | GenLeaf (inr (inr (inl bits))) => PFloat bits
  | GenLeaf (inr (inr (inr s))) => PStr s
  | GenNode 1 ts => PList (List.map from_tree ts)
  | GenNode 2 ts =>
      PDict (List.map (fun t =>
                         match t with
                         | GenNode 3 [GenLeaf (inr (inr (inr k))); v] => (k, from_tree v)
                         | _ => (EmptyString, PNone)
                         end) ts)
  | GenNode _ _ => PNone
  end.


Fixpoint pos_to_bits (p : positive) : string :=
  match p with
  | xH => "."
  | xO q => String "0" (pos_to_bits q)
  | xI q => String "1" (pos_to_bits q)
  end.

Fixpoint bits_to_pos (s : string) : option positive :=
  match s with
  | EmptyString => None
  | String c s' =>
      if Ascii.eqb c "." then
        match s' with EmptyString => Some xH | _ => None end
      else if Ascii.eqb c "0" then xO <$> bits_to_pos s'
      else if Ascii.eqb c "1" then xI <$> bits_to_pos s'
      else None
  end.


Definition tree_dumps (d : pyval) : string := pos_to_bits (encode (to_tree d)).

Definition tree_loads (s : string) : option pyval :=
  match bits_to_pos s with
  | Some p => from_tree <$> decode p
  | None => None
  end.


Lemma tree_dumps_not_empty d : tree_dumps d <> EmptyString.
Proof. unfold tree_dumps. by destruct (encode (to_tree d)). Qed.

(** ** The headers of a fresh [requests.Session()] *)
Definition requests_default_headers : headers :=
  headers_update ∅
    [ ("User-Agent", "python-requests/2.32.3");
      ("Accept-Encoding", "gzip, deflate");
      ("Accept", "*/*");
      ("Connection", "keep-alive") ].

(** [str(PurePosixPath(d) / name)]: the components of [d] and of [name],
    without the empty ones and the [.] ones; an absolute [name] replaces
    [d]. *)
Fixpoint components_from (s cur : string) : list string :=
  match s with
  | EmptyString => [cur]
  | String c s' =>
      if Ascii.eqb c "/" then cur :: components_from s' EmptyString
      else components_from s' (cur +:+ String c EmptyString)
  end.

Definition components (s : string) : list string :=
  List.filter (fun x => negb (String.eqb x EmptyString || String.eqb x "."))
              (components_from s EmptyString).

Definition is_absolute (s : string) : bool :=
  match s with String c _ => Ascii.eqb c "/" | EmptyString => false end.

Fixpoint join_slash (l : list string) : string :=
  match l with
  | [] => EmptyString
  | [x] => x
  | x :: l' => x +:+ "/" +:+ join_slash l'
  end.

Definition posix_join (d name : string) : string :=
  let parts :=
    if is_absolute name then components name
    else (components d ++ components name)%list in
  let root := if is_absolute name || is_absolute d then "/" else EmptyString in
  match parts with
  | [] => if is_absolute name || is_absolute d then "/" else "."
  | _ => root +:+ join_slash parts
  end.

Example posix_join_collapses :
  posix_join "orders" "7.json" = "orders/7.json" /\
  posix_join "orders" "./7.json" = "orders/7.json" /\
  posix_join "orders" "/tmp/7.json" = "/tmp/7.json".
Proof. vm_compute. auto. Qed.

(** ** A batch of three

    [7] is fetched and saved, [8] answers 404, [abc] is not an order
    number; two workers, counters holding leftovers from an earlier run. *)
Definition demo_self : UrbanPiperOrderFetcher :=
  __init__ "https://atlas-server.urbanpiper.com/graphql" (Some "token") (Some "sid=1").

Definition demo_world : world := World ∅ None 4 2 9.

Definition demo_rows : list string := ["7"; " 8 "; EmptyString; "abc"].

Definition demo_doc : pyval := PDict [("order", PDict [("id", PInt 7)])].

Definition demo_ok : response := Response 200 (tree_dumps demo_doc).
Definition demo_404 : response := Response 404 "Not Found".

Definition answers (r : response) : oracle := Oracle (inr r) None None None.

Abbreviation demo_run :=
  (fetch_all_orders_run ascii_int ascii_strip tree_loads tree_dumps
     requests_default_headers posix_join).

Definition demo_sched : list choice :=
  [Dequeue; Dequeue;
   Work 0 quiet; Work 1 quiet; Work 0 (answers demo_ok); Work 1 (answers demo_404);
   Work 0 quiet; Work 0 quiet;
   Work 1 quiet; Work 1 quiet; Work 1 quiet; Work 1 quiet;
   Work 0 quiet; Dequeue; Work 0 quiet; Work 0 quiet; Work 0 quiet;
   Work 2 quiet; Work 2 quiet; Work 2 quiet; Work 2 quiet; Work 2 quiet;
   Collect 1; Collect 0; Collect 2].

Definition no_pool : pool := Pool demo_world [] None [] 0 [].

Definition demo_final : pool :=
  Eval vm_compute in
    default no_pool (demo_run demo_self demo_world (Some demo_rows) 2 demo_sched).

Definition demo_future (s : pool) (i : nat) : future :=
  default (Pending (Ret EmptyString)) (futures s !! i).

Lemma demo_run_final :
  demo_run demo_self demo_world (Some demo_rows) 2 demo_sched = Some demo_final.
Proof. vm_compute. reflexivity. Qed.

Lemma demo_final_completed : completed demo_final = true.
Proof. vm_compute. reflexivity. Qed.

Example demo_tally :
  (successful_fetches (shared demo_final), failed_fetches (shared demo_final),
   skipped_fetches (shared demo_final)) = (1, 2, 0).
Proof. vm_compute. reflexivity. Qed.


Lemma C9_witness :
  lock demo_world = None /\
  demo_run demo_self demo_world (Some demo_rows) 2 demo_sched = Some demo_final /\
  completed demo_final = true /\
  successful_fetches (shared demo_final) = 1 /\
  failed_fetches (shared demo_final) = 2 /\
  skipped_fetches (shared demo_final) = 0.
Proof.
  split; [reflexivity|]. split; [exact demo_run_final|].
  split; [exact demo_final_completed|].
  exact (proj2 (C9_counters_reset_per_run ascii_int ascii_strip tree_loads tree_dumps
                  requests_default_headers posix_join demo_self demo_world demo_rows 2 demo_sched
                  demo_final eq_refl demo_run_final demo_final_completed)).
Defined.


Lemma demo_rows_distinct :
  distinct_files posix_join demo_self (read_order_ids ascii_strip demo_rows).
Proof. apply (bool_decide_unpack _). vm_compute. exact I. Qed.

(** Two identifiers, one file. *)
Example same_file :
  order_file posix_join demo_self "./7" = order_file posix_join demo_self "7" /\
  ~ distinct_files posix_join demo_self ["./7"; "7"].
Proof.
  split; [vm_compute; reflexivity|].
  intros H. apply (bool_decide_pack _) in H. vm_compute in H. exact H.
Qed.

Lemma one_file :
  distinct_files posix_join demo_self (read_order_ids ascii_strip ["7"]).
Proof. apply (bool_decide_unpack _). vm_compute. exact I. Qed.


Lemma C4_witness :
  exists n v,
    ascii_int "8" = Some n /\
    demo_future demo_final 1 =
      Done (Returned "failed") true (fut_log (demo_future demo_final 1)) /\
    history (demo_future demo_final 1) =
      [EvExists "orders/8.json" (inr false);
       EvPost (_create_session requests_default_headers demo_self)
              (api_base_url demo_self) (payload n) (inr demo_404);
       EvAcquire; EvGet Failed v; EvSet Failed (v + 1); EvRelease] /\
    failed_fetches (shared demo_final)
      = 1 + sumZ (counted Failed) (delete 1%nat (futures demo_final)) /\
    files (shared demo_final) !! "orders/8.json" = None.
Proof.
  destruct (C4_failed_fetch_writes_nothing ascii_int ascii_strip tree_loads tree_dumps
              requests_default_headers posix_join demo_self demo_world demo_rows 2
              demo_sched demo_final 1 "8" (demo_future demo_final 1)
              (_create_session requests_default_headers demo_self)
              (api_base_url demo_self) (payload 8) demo_404
              eq_refl demo_run_final demo_final_completed)
    as (n & v & Hn & Hf & Hh & Hfl & _ & _ & _ & Hfile).
  - reflexivity.
  - reflexivity.
  - apply (nth_error_In _ 4). vm_compute. reflexivity.
  - left. vm_compute. discriminate.
  - exists n, v. split; [exact Hn|]. split; [exact Hf|]. split; [exact Hh|].
    split; [exact Hfl|]. exact (Hfile demo_rows_distinct).
Defined.


(** ** A record that is already there *)

Definition kept_world : world :=
  World {["orders/7.json" := Text "kept"]} None 0 0 0.

Definition skip_sched : list choice :=
  [Dequeue; Work 0 quiet; Work 0 quiet; Work 0 quiet; Work 0 quiet; Work 0 quiet;
   Collect 0].

Definition kept_final : pool :=
  Eval vm_compute in
    default no_pool (demo_run demo_self kept_world (Some ["7"]) 5 skip_sched).

Lemma kept_run_final :
  demo_run demo_self kept_world (Some ["7"]) 5 skip_sched = Some kept_final.
Proof. vm_compute. reflexivity. Qed.



(** ** A disk that refuses the first file *)

Definition disk_full : oracle := Oracle (inl RequestException) None (Some OSError) None.

Definition err_sched1 : list choice :=
  [Dequeue; Work 0 quiet; Work 0 (answers demo_ok); Work 0 disk_full].

Definition err_sched2 : list choice :=
  [Dequeue; Work 1 quiet; Work 1 (answers demo_ok); Work 1 quiet; Work 1 quiet;
   Work 1 quiet; Work 1 quiet; Work 1 quiet; Work 1 quiet;
   Collect 0; MainStep; MainStep; MainStep; MainStep; Collect 1].

Definition fresh_world : world := World ∅ None 0 0 0.


Definition err_final : pool :=
  Eval vm_compute in
    default no_pool
      (demo_run demo_self fresh_world (Some ["7"; "8"]) 1 (err_sched1 ++ err_sched2)).


Lemma err_run_final :
  demo_run demo_self fresh_world (Some ["7"; "8"]) 1 (err_sched1 ++ err_sched2)
    = Some err_final.
Proof. vm_compute. reflexivity. Qed.





Example err_final_tally :
  (successful_fetches (shared err_final), failed_fetches (shared err_final),
   skipped_fetches (shared err_final)) = (1, 1, 0) /\
  is_Some (files (shared err_final) !! "orders/8.json").
Proof. vm_compute. eauto. Qed.



(** ** The same batch twice *)







(** ** A file between [open] and the write *)

Definition open_sched : list choice :=
  [Dequeue; Work 0 quiet; Work 0 (answers demo_ok); Work 0 quiet].

Definition opened : pool :=
  Eval vm_compute in
    default no_pool (demo_run demo_self fresh_world (Some ["7"]) 5 open_sched).

Lemma open_run :
  demo_run demo_self fresh_world (Some ["7"]) 5 open_sched = Some opened.
Proof. vm_compute. reflexivity. Qed.

Lemma C7_witness :
  files (shared opened) !! "orders/7.json"
    = view (files fresh_world !! "orders/7.json") (fut_log (demo_future opened 0)) /\
  files (shared opened) !! "orders/7.json" = Some Writing.
Proof.
  destruct (C7_file_follows_its_task ascii_int ascii_strip tree_loads tree_dumps
              requests_default_headers posix_join demo_self fresh_world ["7"] 5
              open_sched opened 0 "7" (demo_future opened 0) eq_refl open_run one_file)
    as (Hview & _ & Hopen & _).
  - reflexivity.
  - reflexivity.
  - split; [exact Hview|]. eapply Hopen. vm_compute. reflexivity.
Defined.

Definition race_sched : list choice :=
  [Dequeue; Dequeue; Work 0 quiet; Work 0 (answers demo_ok); Work 0 quiet;
   Work 1 quiet].

Definition raced : pool :=
  Eval vm_compute in
    default no_pool (demo_run demo_self fresh_world (Some ["7"; "7"]) 2 race_sched).

Lemma race_run :
  demo_run demo_self fresh_world (Some ["7"; "7"]) 2 race_sched = Some raced.
Proof. vm_compute. reflexivity. Qed.

Lemma race_observed :
  exists tr, trace raced = (TTask 1, EvExists "orders/7.json" (inr true)) :: tr.
Proof. vm_compute. eauto. Qed.

Lemma race_content : files (shared raced) !! "orders/7.json" = Some Writing.
Proof. vm_compute. reflexivity. Qed.

(** C7, refuted as the specification states it: the identifier occurs
    twice; the first task has opened the file and its write has not ended
    when the second task's existence check finds it, incomplete. *)
Lemma C7_counterexample :
  ~ exists_sees_complete_records ascii_int ascii_strip tree_loads tree_dumps
      requests_default_headers posix_join demo_self fresh_world (Some ["7"; "7"]) 2.
Proof.
  intros H. destruct race_observed as (tr & Htr).
  destruct (H race_sched raced 1%nat "orders/7.json" tr race_run Htr eq_refl) as (d & Hd).
  rewrite race_content in Hd. discriminate Hd.
Qed.

(** ** The session of a fetcher with both credentials *)

Lemma C10_witness :
  header_get requests_default_headers "Cookie" = None /\
  header_get (session_headers (_create_session requests_default_headers demo_self))
    "Authorization" = Some "Bearer token" /\
  header_get (session_headers (_create_session requests_default_headers demo_self))
    "Cookie" = None.
Proof.
  split; [vm_compute; reflexivity|].
  exact (proj1 (C10_bearer_token_excludes_cookie requests_default_headers demo_self
                  eq_refl) "token" eq_refl).
Defined.

(** ** Further runs *)

Lemma X2_witness :
  lock demo_world = None /\
  demo_run demo_self demo_world (Some demo_rows) 2 demo_sched = Some demo_final /\
  sumZ (fun f => posts (fut_log f)) (futures demo_final) <= 3.
Proof.
  split; [reflexivity|]. split; [exact demo_run_final|].
  exact (proj1 (X2_at_most_one_request_per_identifier ascii_int ascii_strip tree_loads
                  tree_dumps requests_default_headers posix_join demo_self demo_world demo_rows 2
                  demo_sched demo_final eq_refl demo_run_final)).
Defined.






Lemma X4_witness :
  lock fresh_world = None /\
  demo_run demo_self fresh_world (Some ["7"; "8"]) 1 (err_sched1 ++ err_sched2)
    = Some err_final /\
  forall c,
    get_counter c (shared err_final)
    = sumZ (fun f => stores c (fut_log f)) (futures err_final)
      + stores c (main_log err_final).
Proof.
  split; [reflexivity|]. split; [exact err_run_final|].
  exact (proj2 (proj2 (proj2
           (X4_lock_protects_counters ascii_int ascii_strip tree_loads tree_dumps
              requests_default_headers posix_join demo_self fresh_world ["7"; "8"] 1
              (err_sched1 ++ err_sched2) err_final eq_refl err_run_final)))).
Defined.

Lemma X5_witness :
  files (shared kept_final) !! "orders/7.json" = files kept_world !! "orders/7.json".
Proof.
  apply (X5_run_writes_only_missing_records ascii_int ascii_strip tree_loads tree_dumps
           requests_default_headers posix_join demo_self kept_world ["7"] 5 skip_sched kept_final
           "orders/7.json" eq_refl kept_run_final).
  exists (Text "kept"). vm_compute. reflexivity.
Defined.

(** ** A write that stops half way, and the next run

    The order is fetched, with status 200 and a body that parses;
    [json.dump] raises [UnicodeEncodeError] after five characters. *)

Definition torn : oracle :=
  Oracle (inl RequestException) None None (Some (5%nat, UnicodeEncodeError)).

Definition torn_sched : list choice :=
  [Dequeue; Work 0 quiet; Work 0 (answers demo_ok); Work 0 quiet; Work 0 torn;
   Collect 0; MainStep; MainStep; MainStep; MainStep].

Definition torn_final : pool :=
  Eval vm_compute in
    default no_pool (demo_run demo_self fresh_world (Some ["7"]) 5 torn_sched).






Example torn_file :
  files (shared torn_final) !! "orders/7.json"
    = Some (Text (String.substring 0 5 (tree_dumps (PDict [("data", demo_doc)])))) /\
  failed_fetches (shared torn_final) = 1.
Proof. vm_compute. split; reflexivity. Qed.




(** ** An input of blank rows *)

Definition blank_rows : list string := [EmptyString; "   "].

Definition blank_final : pool :=
  Eval vm_compute in
    default no_pool (demo_run demo_self demo_world (Some blank_rows) 2 []).

Lemma blank_run_final :
  demo_run demo_self demo_world (Some blank_rows) 2 [] = Some blank_final.
Proof. vm_compute. reflexivity. Qed.

Lemma X7_witness :
  completed blank_final = true /\
  (successful_fetches (shared blank_final), failed_fetches (shared blank_final),
   skipped_fetches (shared blank_final)) = (0, 0, 0).
Proof.
  destruct (X7_blank_input_runs_nothing ascii_int ascii_strip tree_loads tree_dumps
              requests_default_headers posix_join demo_self demo_world blank_rows 2 [] blank_final)
    as (_ & Hc & Hs & Hf & Hk & _).
  - vm_compute. reflexivity.
  - exact blank_run_final.
  - split; [exact Hc|]. by rewrite Hs, Hf, Hk.
Defined.

(** ** Headers *)

Lemma X8_witness :
  header_get requests_default_headers "user-agent" = Some "python-requests/2.32.3" /\
  header_get (session_headers (_create_session requests_default_headers demo_self))
    "User-Agent"
  = Some "Mozilla/5.0 (Macintosh; Intel Mac OS X 10_15_7) AppleWebKit/537.36 (KHTML, like Gecko) Chrome/138.0.0.0 Safari/537.36".
Proof.
  split; [vm_compute; reflexivity|].
  apply (X8_common_headers_always_sent requests_default_headers demo_self "user-agent").
  - apply (nth_error_In _ 13). reflexivity.
  - vm_compute. reflexivity.
Defined.

Definition anonymous : UrbanPiperOrderFetcher :=
  __init__ "https://atlas-server.urbanpiper.com/graphql" None (Some EmptyString).

Lemma X9_witness :
  header_get (session_headers (_create_session requests_default_headers anonymous))
    "Authorization" = None /\
  header_get (session_headers (_create_session requests_default_headers anonymous))
    "Cookie" = None.
Proof.
  apply (X9_authorization_only_from_token requests_default_headers anonymous);
    vm_compute; reflexivity.
Defined.

(** ** The pool *)

Lemma X10_witness :
  completed opened = false /\
  exists c s',
    demo_run demo_self fresh_world (Some ["7"]) 5 (open_sched ++ [c])%list = Some s'.
Proof.
  split; [vm_compute; reflexivity|].
  apply (X10_run_never_stuck ascii_int ascii_strip tree_loads tree_dumps
           requests_default_headers posix_join demo_self fresh_world ["7"] 5 open_sched opened
           eq_refl open_run).
  vm_compute. reflexivity.
Defined.

Lemma X11_witness : Z.of_nat (length demo_sched) <= 14 * 3.
Proof.
  exact (X11_runs_are_bounded ascii_int ascii_strip tree_loads tree_dumps
           requests_default_headers posix_join demo_self demo_world demo_rows 2 demo_sched
           demo_final eq_refl demo_run_final).
Defined.

Lemma X14_witness :
  exists rest s',
    demo_run demo_self fresh_world (Some ["7"]) 5 (open_sched ++ rest)%list
      = Some s' /\
    completed s' = true.
Proof.
  exact (X14_every_run_can_be_finished ascii_int ascii_strip tree_loads tree_dumps
           requests_default_headers posix_join demo_self fresh_world ["7"] 5 open_sched opened
           eq_refl open_run).
Defined.

(** ** The single-order script over a stale record *)



(** ** The batch of three, one worker, a network that answers by identifier *)








